(** * ts-module-alias: a shallow embedding of [src/index.ts]

    The development follows the source file top to bottom.  JavaScript
    strings are [string]s (code units restricted to one byte), arrays are
    lists, plain objects used as dictionaries are ordered property lists
    ([JsObject]), and the objects the class shares with Node's runtime
    (modules, module constructors, engine instances) live in a store
    addressed by references. *)

From Stdlib Require Import String Ascii List Bool Arith NArith Lia.
From Stdlib Require Import Sorting.Sorted Sorting.Permutation.
Import ListNotations.

Local Open Scope list_scope.
Local Open Scope string_scope.

(** ** JavaScript string primitives used by the source *)

Module Str.

(** [s.substr(start)] for [0 <= start]: the suffix from [start] on. *)
Fixpoint substr (start : nat) (s : string) : string :=
  match start, s with
  | O, _ => s
  | S n, String _ s' => substr n s'
  | S _, EmptyString => EmptyString
  end.

(** [s.indexOf(needle)]: first position of [needle], [None] for -1. *)
Definition indexOf (needle s : string) : option nat := String.index 0 needle s.

(** [s\[i\] === c]; out of range [s\[i\]] is [undefined]. *)
Definition charAtIs (i : nat) (c : ascii) (s : string) : bool :=
  match String.get i s with
  | Some d => Ascii.eqb d c
  | None => false
  end.

Fixpoint last (s : string) : option ascii :=
  match s with
  | EmptyString => None
  | String c EmptyString => Some c
  | String _ s' => last s'
  end.

(** [s.endsWith(suffix)] *)
Definition endsWith (suffix s : string) : bool :=
  (String.length suffix <=? String.length s)%nat
  && String.eqb (substr (String.length s - String.length suffix) s) suffix.

(** [s.replace(/suffix$/, '')] for a literal [suffix]. *)
Definition stripSuffix (suffix s : string) : string :=
  if endsWith suffix s
  then String.substring 0 (String.length s - String.length suffix) s
  else s.

(** Insertion of one name into an ascending list; [Array.prototype.sort]
    without a comparator orders strings by code units, which is
    [String.leb]. *)
Fixpoint insert (x : string) (l : list string) : list string :=
  match l with
  | [] => [x]
  | y :: l' => if String.leb x y then x :: l else y :: insert x l'
  end.

Definition sort (l : list string) : list string := fold_right insert [] l.

End Str.

(** ** Node's [path] module, POSIX flavour

    The source imports [Path] from Node; the four functions it calls are
    written here after Node's algorithm, on path segments instead of on
    character indices. *)

Module Path.

Definition sep : ascii := "/"%char.

(** [s.split('/')] *)
Fixpoint split (s : string) : list string :=
  match s with
  | EmptyString => [EmptyString]
  | String c s' =>
      if Ascii.eqb c sep then EmptyString :: split s'
      else match split s' with
           | seg :: rest => String c seg :: rest
           | [] => [String c EmptyString]
           end
  end.

Fixpoint hasSep (s : string) : bool :=
  match s with
  | EmptyString => false
  | String c s' => Ascii.eqb c sep || hasSep s'
  end.

(** One segment of [normalizeString]; [res] holds the retained segments,
    last one first. *)
Definition step (allowAboveRoot : bool) (res : list string) (seg : string)
  : list string :=
  if String.eqb seg "" || String.eqb seg "." then res
  else if String.eqb seg ".." then
    match res with
    | top :: below =>
        if String.eqb top ".." then
          (if allowAboveRoot then ".." :: res else res)
        else below
    | [] => if allowAboveRoot then [".."] else []
    end
  else seg :: res.

Definition normalizeString (path : string) (allowAboveRoot : bool) : string :=
  String.concat "/" (rev (fold_left (step allowAboveRoot) (split path) [])).

Definition isAbsolute (path : string) : bool :=
  match path with
  | String c _ => Ascii.eqb c sep
  | EmptyString => false
  end.

Definition trailingSeparator (path : string) : bool :=
  match Str.last path with
  | Some c => Ascii.eqb c sep
  | None => false
  end.

Definition normalize (path : string) : string :=
  match path with
  | EmptyString => "."
  | _ =>
      let abs := isAbsolute path in
      let trailing := trailingSeparator path in
      let p := normalizeString path (negb abs) in
      match p with
      | EmptyString => if abs then "/" else if trailing then "./" else "."
      | _ => (if abs then "/" else "") ++ p ++ (if trailing then "/" else "")
      end
  end.

(** [Path.join(a, b)]: empty arguments are dropped, the rest is glued with
    the separator and normalized. *)
Definition join (a b : string) : string :=
  match a, b with
  | EmptyString, EmptyString => "."
  | EmptyString, _ => normalize b
  | _, EmptyString => normalize a
  | _, _ => normalize (a ++ "/" ++ b)
  end.

(** [Path.resolve(p)] with the process working directory [cwd]. *)
Definition resolve (cwd p : string) : string :=
  let s1 := match p with EmptyString => "" | _ => p ++ "/" end in
  let s2 := if isAbsolute p then s1
            else match cwd with EmptyString => s1 | _ => cwd ++ "/" ++ s1 end in
  let abs := isAbsolute p || isAbsolute cwd in
  let r := normalizeString s2 (negb abs) in
  if abs then "/" ++ r
  else match r with EmptyString => "." | _ => r end.

End Path.

(** ** Plain objects used as dictionaries

    An object literal [{}] that the source fills by [o\[k\] = v] and reads back
    with [o\[k\]], [Object.keys] and [for ... in].  Own properties are kept in
    creation order; [keys] applies the order JavaScript prescribes for own
    property keys: array indices first, ascending, then the other names in
    creation order. *)

Module JsObject.

Definition t (V : Type) : Type := list (string * V).

Definition empty {V} : t V := [].

Fixpoint get {V} (k : string) (o : t V) : option V :=
  match o with
  | [] => None
  | (k', v) :: o' => if String.eqb k k' then Some v else get k o'
  end.

Definition has {V} (k : string) (o : t V) : bool :=
  match get k o with Some _ => true | None => false end.

Fixpoint replace {V} (k : string) (v : V) (o : t V) : t V :=
  match o with
  | [] => []
  | (k', v') :: o' =>
      if String.eqb k k' then (k', v) :: o' else (k', v') :: replace k v o'
  end.

(** [o\[k\] = v] for a value that is not an object (a string, a boolean),
    on an object whose prototype chain is the one of an object literal.  An
    existing own property is overwritten in place, a new one is created
    last.  The name [__proto__] is not created on an object that lacks it:
    the assignment reaches the accessor inherited from [Object.prototype],
    which does nothing for such a value.  The alias dictionary also takes
    functions; its assignment is [assignAlias] below. *)
Definition set {V} (k : string) (v : V) (o : t V) : t V :=
  if has k o then replace k v o
  else if String.eqb k "__proto__" then o
  else (o ++ [(k, v)])%list.

Definition digit (c : ascii) : option N :=
  let n := N_of_ascii c in
  if (48 <=? n)%N && (n <=? 57)%N then Some (n - 48)%N else None.

Fixpoint parseDigits (acc : N) (s : string) : option N :=
  match s with
  | EmptyString => Some acc
  | String c s' =>
      match digit c with
      | Some d => parseDigits (acc * 10 + d)%N s'
      | None => None
      end
  end.

(** A property name is an array index when it is the canonical decimal
    form of an integer below [2^32 - 1]. *)
Definition arrayIndex (k : string) : option N :=
  match k with
  | EmptyString => None
  | String c rest =>
      if Ascii.eqb c "0"%char && negb (String.eqb rest "") then None
      else match parseDigits 0 k with
           | Some n => if (n <? 4294967295)%N then Some n else None
           | None => None
           end
  end.

Fixpoint insertIndex (x : N * string) (l : list (N * string))
  : list (N * string) :=
  match l with
  | [] => [x]
  | y :: l' => if (fst x <=? fst y)%N then x :: l else y :: insertIndex x l'
  end.

Fixpoint indexKeys {V} (o : t V) : list (N * string) :=
  match o with
  | [] => []
  | (k, _) :: o' =>
      match arrayIndex k with
      | Some n => insertIndex (n, k) (indexKeys o')
      | None => indexKeys o'
      end
  end.

Fixpoint nameKeys {V} (o : t V) : list string :=
  match o with
  | [] => []
  | (k, _) :: o' =>
      match arrayIndex k with
      | Some _ => nameKeys o'
      | None => k :: nameKeys o'
      end
  end.

(** [Object.keys(o)], also the order of [for (k in o)]. *)
Definition keys {V} (o : t V) : list string :=
  (map snd (indexKeys o) ++ nameKeys o)%list.

End JsObject.

(** Arrays: [arr.indexOf(x)] with strict equality on strings. *)

Module Arr.

Fixpoint indexOf (x : string) (arr : list string) : option nat :=
  match arr with
  | [] => None
  | y :: arr' =>
      if String.eqb y x then Some O
      else match indexOf x arr' with
           | Some n => Some (S n)
           | None => None
           end
  end.

End Arr.

(** ** Data model of [src/index.ts] *)

(** Values a custom handler may hand back, as far as [!v] and [typeof v]
    tell them apart. *)
Inductive JsValue : Type :=
| VUndefined
| VNull
| VBoolean (b : bool)
| VNumber (n : N)
| VString (s : string)
| VObject.

Definition truthy (v : JsValue) : bool :=
  match v with
  | VUndefined | VNull => false
  | VBoolean b => b
  | VNumber n => negb (n =? 0)%N
  | VString s => negb (String.eqb s "")
  | VObject => true
  end.

Definition typeofString (v : JsValue) : bool :=
  match v with VString _ => true | _ => false end.

(** Errors: an [Error] with the message the source gives it, a [TypeError]
    of the runtime (its message varies with the value at fault and is left
    out), an error of the host's own resolver. *)
Inductive Exn : Type :=
| Error (message : string)
| TypeError
| HostError (code : string).

Inductive Completion (A : Type) : Type :=
| Return (a : A)
| Throw (e : Exn).
Arguments Return {A} a.
Arguments Throw {A} e.

(** An entry of [ModuleAliasDict]: a path, or a handler
    [(from, request, alias) => string]. *)
Inductive AliasTarget : Type :=
| Static (target : string)
| Handler (f : string -> string -> string -> JsValue).

Definition ModuleAliasDict : Type := JsObject.t AliasTarget.

Definition ModRef := nat.
Definition CtorRef := nat.
Definition InstRef := nat.

(** The fields of a [NodeModule] the class touches; [paths] may be missing
    on a poorly mocked module. *)
Record NodeModule : Type := mkNodeModule {
  filename : string;
  paths : option (list string);
  constructor : CtorRef
}.

(** The module objects of the runtime, by reference. *)
Definition ModHeap : Type := ModRef -> NodeModule.

Definition setPaths (r : ModRef) (ps : option (list string)) (heap : ModHeap)
  : ModHeap :=
  fun r' =>
    if Nat.eqb r' r
    then mkNodeModule (filename (heap r)) ps (constructor (heap r))
    else heap r'.

Definition FuncNodeModulePaths : Type := string -> list string.

(** [(request, parent, ...args) => string]: the delegate sees the module
    objects as they are at the call and may throw.  The receiver [this] is
    only passed through by the source and is left out. *)
Definition FuncResolveFileName : Type :=
  string -> option ModRef -> list JsValue -> ModHeap ->
  Completion string * ModHeap.

(** The prototype of the [moduleAliases] object: [Object.prototype], as for
    every object literal, or a function, once one has been assigned to it
    under [__proto__]. *)
Inductive Prototype : Type :=
| ObjectPrototype
| FunctionPrototype.

(** The fields of the class; [moduleAliases] holds the own properties of
    the dictionary and [moduleAliasesPrototype] the prototype JavaScript
    keeps with that object. *)
Record ModuleAlias : Type := mkModuleAlias {
  module : ModRef;
  ModuleCtor : CtorRef;
  oldNodeModulePaths : FuncNodeModulePaths;
  oldResolveFilename : FuncResolveFileName;
  modulePaths : list string;
  moduleAliases : ModuleAliasDict;
  moduleAliasesPrototype : Prototype;
  moduleAliasNames : list string
}.

Definition withModulePaths (ps : list string) (self : ModuleAlias) : ModuleAlias :=
  mkModuleAlias (module self) (ModuleCtor self) (oldNodeModulePaths self)
    (oldResolveFilename self) ps (moduleAliases self)
    (moduleAliasesPrototype self) (moduleAliasNames self).

Definition withAliases (proto : Prototype) (d : ModuleAliasDict)
  (names : list string) (self : ModuleAlias) : ModuleAlias :=
  mkModuleAlias (module self) (ModuleCtor self) (oldNodeModulePaths self)
    (oldResolveFilename self) (modulePaths self) d proto names.

(** ** Methods *)

(** [addPathHelper(path, targetArray)]; the result is the array after the
    call ([None] when [targetArray] is missing). *)
Definition addPathHelper (path : string) (targetArray : option (list string))
  : option (list string) :=
  let path := Path.normalize path in
  match targetArray with
  | Some arr =>
      match Arr.indexOf path arr with
      | None => Some (path :: arr)
      | Some _ => Some arr
      end
  | None => None
  end.

(** [addPath(path)] *)
Definition addPath (path : string) (self : ModuleAlias) (heap : ModHeap)
  : ModuleAlias * ModHeap :=
  let path := Path.normalize path in
  match Arr.indexOf path (modulePaths self) with
  | None =>
      (withModulePaths (path :: modulePaths self) self,
       setPaths (module self)
         (addPathHelper path (paths (heap (module self)))) heap)
  | Some _ => (self, heap)
  end.

(** The names every function object keeps from being assigned on an
    object that inherits from it: [name] and [length] are read-only, and
    [caller] and [arguments] are read-only or have a setter that throws. *)
Definition functionReadOnly (k : string) : bool :=
  String.eqb k "name" || String.eqb k "length"
  || String.eqb k "caller" || String.eqb k "arguments".

(** [this.moduleAliases\[alias\] = target], in strict code: the prototype
    and the own properties of the dictionary afterwards, or the error.  An
    own property is overwritten.  Otherwise the assignment goes by the
    prototype chain: [__proto__] reaches the accessor of
    [Object.prototype], which makes a function the new prototype and
    ignores a string; a name that the prototype, when it is a function,
    keeps read-only makes the assignment throw; any other name becomes a
    new own property, created last.  A handler is an ordinary function
    object, as a function expression or an arrow function gives it. *)
Definition assignAlias (alias : string) (target : AliasTarget)
  (proto : Prototype) (d : ModuleAliasDict)
  : Completion (Prototype * ModuleAliasDict) :=
  if JsObject.has alias d then Return (proto, JsObject.replace alias target d)
  else if String.eqb alias "__proto__" then
    match target with
    | Handler _ => Return (FunctionPrototype, d)
    | Static _ => Return (proto, d)
    end
  else
    match proto with
    | FunctionPrototype =>
        if functionReadOnly alias then Throw TypeError
        else Return (proto, (d ++ [(alias, target)])%list)
    | ObjectPrototype => Return (proto, (d ++ [(alias, target)])%list)
    end.

(** [addAlias(alias, target)] as a call: the instance it leaves, or the
    error of the assignment, thrown before anything is written. *)
Definition addAliasCall (alias : string) (target : AliasTarget)
  (self : ModuleAlias) : Completion ModuleAlias :=
  match assignAlias alias target (moduleAliasesPrototype self) (moduleAliases self) with
  | Return (proto, d) =>
      Return (withAliases proto d (Str.sort (JsObject.keys d)) self)
  | Throw e => Throw e
  end.

(** The instance after [addAlias(alias, target)]; a call that throws has
    changed nothing. *)
Definition addAlias (alias : string) (target : AliasTarget) (self : ModuleAlias)
  : ModuleAlias :=
  match addAliasCall alias target self with
  | Return self' => self'
  | Throw _ => self
  end.

(** The error [addAlias(alias, target)] ends with, if any. *)
Definition addAliasThrows (alias : string) (target : AliasTarget)
  (self : ModuleAlias) : option Exn :=
  match addAliasCall alias target self with
  | Return _ => None
  | Throw e => Some e
  end.

(** The loop of [addAliases]: [for (let alias in aliases)] visits the keys
    in [Object.keys] order; a call of [addAlias] that throws ends the loop
    with what the earlier calls have registered. *)
Fixpoint addAliasesLoop (aliases : ModuleAliasDict) (ks : list string)
  (self : ModuleAlias) : ModuleAlias * option Exn :=
  match ks with
  | [] => (self, None)
  | alias :: ks' =>
      match JsObject.get alias aliases with
      | Some target =>
          match addAliasCall alias target self with
          | Return self' => addAliasesLoop aliases ks' self'
          | Throw e => (self, Some e)
          end
      | None => addAliasesLoop aliases ks' self
      end
  end.

(** The instance after [addAliases(aliases)], and the error the call ends
    with, if any. *)
Definition addAliases (aliases : ModuleAliasDict) (self : ModuleAlias)
  : ModuleAlias :=
  fst (addAliasesLoop aliases (JsObject.keys aliases) self).

Definition addAliasesThrows (aliases : ModuleAliasDict) (self : ModuleAlias)
  : option Exn :=
  snd (addAliasesLoop aliases (JsObject.keys aliases) self).

(** [isPathMatchesAlias(path, alias)] *)
Definition isPathMatchesAlias (path alias : string) : bool :=
  match Str.indexOf alias path with
  | Some O =>
      (String.length path =? String.length alias)%nat
      || Str.charAtIs (String.length alias) "/"%char path
  | _ => false
  end.

(** [nodeModulePaths(self, from)] *)
Definition nodeModulePaths (self : ModuleAlias) (from : string) : list string :=
  let paths := oldNodeModulePaths self from in
  match Str.indexOf "node_modules" from with
  | None => (modulePaths self ++ paths)%list
  | Some _ => paths
  end.

Definition handlerError : Exn :=
  Error "[module-alias] Expecting custom handler function to return path.".

(** What the runtime throws for [parent.filename] on a [parent] that is
    null or undefined, and what [Path.join] throws for an argument that is
    not a string. *)
Definition nullParentError : Exn := TypeError.

Definition pathArgumentError : Exn := TypeError.

(** The alias loop of [resolveFilename]: the names are visited from the last
    index down, the first match rewrites the request and ends the loop.
    [parent] is the requesting module as the loop reads it. *)
Definition matchedAlias (self : ModuleAlias) (request : string) : option string :=
  find (isPathMatchesAlias request) (rev (moduleAliasNames self)).

Definition rewriteRequest (self : ModuleAlias) (request : string)
  (parent : option NodeModule) : Completion string :=
  match matchedAlias self request with
  | None => Return request
  | Some alias =>
      let rest := Str.substr (String.length alias) request in
      match JsObject.get alias (moduleAliases self) with
      | Some (Handler f) =>
          match parent with
          | None => Throw nullParentError
          | Some m =>
              let aliasTarget := f (filename m) request alias in
              if negb (truthy aliasTarget) || negb (typeofString aliasTarget)
              then Throw handlerError
              else match aliasTarget with
                   | VString s => Return (Path.join s rest)
                   | _ => Throw pathArgumentError
                   end
          end
      | Some (Static target) => Return (Path.join target rest)
      | None => Throw pathArgumentError
      end
  end.

(** The search-path list the wrapper assigns to [parent.paths]: the keys of
    the object [paths] filled from [moduleAndParentPaths]. *)
Definition repairedPaths (self : ModuleAlias) (parentPaths : option (list string))
  : list string :=
  let moduleAndParentPaths :=
    match parentPaths with
    | Some pp => (modulePaths self ++ pp)%list
    | None => modulePaths self
    end in
  JsObject.keys
    (fold_left (fun o path => JsObject.set path true o)
       moduleAndParentPaths JsObject.empty).

(** [resolveFilename(self, request, parent, ...args)] *)
Definition resolveFilename (self : ModuleAlias) (request : string)
  (parent : option ModRef) (args : list JsValue) (heap : ModHeap)
  : Completion string * ModHeap :=
  match rewriteRequest self request (option_map heap parent) with
  | Throw e => (Throw e, heap)
  | Return request' =>
      let heap' :=
        match parent with
        | Some p => setPaths p (Some (repairedPaths self (paths (heap p)))) heap
        | None => heap
        end in
      oldResolveFilename self request' parent args heap'
  end.

(** Code-unit order as a relation. *)
Definition sle (a b : string) : Prop := String.leb a b = true.

(** ** The constructor and the runtime it patches *)

(** A function slot of the module constructor: the runtime's own function,
    or the arrow function the class installs, which closes over [self]. *)
Inductive Hook (F : Type) : Type :=
| Native (f : F)
| Wrapper (self : InstRef).
Arguments Native {F} f.
Arguments Wrapper {F} self.

Record NodeModuleConstructor : Type := mkCtor {
  _nodeModulePaths : Hook FuncNodeModulePaths;
  _resolveFilename : Hook FuncResolveFileName;
  _moduleAlias : option InstRef
}.

(** The objects of one process: modules, module constructors and the
    engine instances created so far ([nextInstance] is the next free
    reference). *)
Record World : Type := mkWorld {
  modules : ModHeap;
  ctors : CtorRef -> NodeModuleConstructor;
  instances : InstRef -> ModuleAlias;
  nextInstance : InstRef
}.

Definition setCtor (c : CtorRef) (k : NodeModuleConstructor)
  (sigma : CtorRef -> NodeModuleConstructor) : CtorRef -> NodeModuleConstructor :=
  fun c' => if Nat.eqb c' c then k else sigma c'.

Definition setInstance (h : InstRef) (i : ModuleAlias)
  (sigma : InstRef -> ModuleAlias) : InstRef -> ModuleAlias :=
  fun h' => if Nat.eqb h' h then i else sigma h'.

(** The function a slot holds, as the constructor captures it.  A wrapper
    found in a slot without a published instance was left by a construction
    that threw; its instance is out of reach and keeps its tables. *)
Definition capturedNodeModulePaths (w : World) (h : Hook FuncNodeModulePaths)
  : FuncNodeModulePaths :=
  match h with
  | Native f => f
  | Wrapper self => nodeModulePaths (instances w self)
  end.

Definition capturedResolveFilename (w : World) (h : Hook FuncResolveFileName)
  : FuncResolveFileName :=
  match h with
  | Native f => f
  | Wrapper self => resolveFilename (instances w self)
  end.

(** [package.json] as far as the constructor reads it, for a manifest as
    the package documentation describes it: an object whose alias targets
    are strings and whose directories are an array of strings. *)
Record PackageJson : Type := mkPackageJson {
  _moduleAliases : JsObject.t string;
  _moduleDirectories : option (list string)
}.

(** The outcome of [require(file)]: the call throws, or it loads a value
    whose [typeof] is not 'object' (a string, a number, a boolean), or it
    loads a manifest object.  A file that holds [null] has no value
    here. *)
Inductive Required : Type :=
| RequireThrows
| NotAnObject
| Package (pkg : PackageJson).

(** What the constructor reads from its surroundings. *)
Record Env : Type := mkEnv {
  module_parent : option ModRef;
  __dirname : string;
  cwd : string;
  require : string -> Required
}.

(** [givenOptions?: ModuleAliasOptions | string] *)
Inductive GivenOptions : Type :=
| OptionsString (base : string)
| OptionsObject (base : option string).

Definition newline : string := String (ascii_of_nat 10) EmptyString.

Definition noParentError : Exn :=
  Error "Failed to initialize ts-module-alias.  `parent` was not defined and a suitable substitute could not be found.".

Definition noPackageError (candidatePackagePaths : list string) : Exn :=
  Error ("Unable to find package.json in any of:" ++ newline ++ "["
         ++ String.concat ("," ++ newline) candidatePackagePaths ++ "]").

Definition candidatePackagePaths (env : Env) (givenOptions : option GivenOptions)
  : list string :=
  let base :=
    match givenOptions with
    | Some (OptionsString b) => Some b
    | Some (OptionsObject b) => b
    | None => None
    end in
  match base with
  | Some b =>
      if String.eqb b ""
      then [Path.join (__dirname env) "../.."; cwd env]
      else [Path.resolve (cwd env) (Str.stripSuffix "/package.json" b)]
  | None => [Path.join (__dirname env) "../.."; cwd env]
  end.

(** The [for ... try ... require ... break] loop: the last directory tried
    and what was loaded from it. *)
Fixpoint findPackage (env : Env) (candidates : list string) (base : option string)
  : option string * Required :=
  match candidates with
  | [] => (base, RequireThrows)
  | c :: rest =>
      match require env (Path.join c "package.json") with
      | RequireThrows => findPackage env rest (Some c)
      | loaded => (Some c, loaded)
      end
  end.

(** The alias import loop over the copy [{...npmPackage._moduleAliases}]:
    absolute targets are joined to [base]. *)
Definition importedAliases (base : string) (declared : JsObject.t string)
  : JsObject.t string :=
  fold_left
    (fun aliases alias =>
       match JsObject.get alias aliases with
       | Some target =>
           if Path.isAbsolute target
           then JsObject.set alias (Path.join base target) aliases
           else aliases
       | None => aliases
       end)
    (JsObject.keys declared) declared.

(** Manifest targets are strings: none has [typeof] 'function'. *)
Definition staticAliases (aliases : JsObject.t string) : ModuleAliasDict :=
  map (fun kv => (fst kv, Static (snd kv))) aliases.

(** The [_moduleDirectories.forEach] callback. *)
Definition importDirectory (base : string) (acc : ModuleAlias * ModHeap)
  (dir : string) : ModuleAlias * ModHeap :=
  if String.eqb dir "node_modules" then acc
  else addPath (Path.join base dir) (fst acc) (snd acc).

Definition importDirectories (base : string) (dirs : option (list string))
  (self : ModuleAlias) (heap : ModHeap) : ModuleAlias * ModHeap :=
  match dirs with
  | Some ds => fold_left (importDirectory base) ds (self, heap)
  | None => (self, heap)
  end.

(** The module the instance works for: [parent], else [module.parent]. *)
Definition requestingModule (env : Env) (parent : option ModRef) : option ModRef :=
  match parent with
  | Some p => Some p
  | None => module_parent env
  end.

(** [new ModuleAlias(parent, givenOptions)]: the handle returned, or the
    error thrown, and the world afterwards. *)
Definition new_ModuleAlias (env : Env) (parent : option ModRef)
  (givenOptions : option GivenOptions) (w : World) : Completion InstRef * World :=
  match requestingModule env parent with
  | None => (Throw noParentError, w)
  | Some m =>
      let c := constructor (modules w m) in
      let ctor := ctors w c in
      match _moduleAlias ctor with
      | Some existing => (Return existing, w)
      | None =>
          let self := nextInstance w in
          let this :=
            mkModuleAlias m c
              (capturedNodeModulePaths w (_nodeModulePaths ctor))
              (capturedResolveFilename w (_resolveFilename ctor))
              [] JsObject.empty ObjectPrototype [] in
          let hooked := mkCtor (Wrapper self) (Wrapper self) None in
          let w1 :=
            mkWorld (modules w) (setCtor c hooked (ctors w))
              (setInstance self this (instances w)) (S self) in
          let candidates := candidatePackagePaths env givenOptions in
          match findPackage env candidates None with
          | (found, Package npmPackage) =>
              let base :=
                match found with
                | Some b => if String.eqb b "" then __dirname env else b
                | None => __dirname env
                end in
              let aliases :=
                staticAliases (importedAliases base (_moduleAliases npmPackage)) in
              let this1 := addAliases aliases this in
              match addAliasesThrows aliases this with
              | Some e =>
                  (Throw e,
                   mkWorld (modules w) (setCtor c hooked (ctors w))
                     (setInstance self this1 (instances w)) (S self))
              | None =>
                  let '(this2, heap2) :=
                    importDirectories base (_moduleDirectories npmPackage)
                      this1 (modules w) in
                  (Return self,
                   mkWorld heap2
                     (setCtor c (mkCtor (Wrapper self) (Wrapper self) (Some self))
                        (ctors w))
                     (setInstance self this2 (instances w)) (S self))
              end
          | (_, _) => (Throw (noPackageError candidates), w1)
          end
      end
  end.

(** Calls through a handle, and calls of the runtime through the slots. *)
Definition callAddAlias (h : InstRef) (alias : string) (target : AliasTarget)
  (w : World) : World :=
  mkWorld (modules w) (ctors w)
    (setInstance h (addAlias alias target (instances w h)) (instances w))
    (nextInstance w).

Definition callAddAliases (h : InstRef) (aliases : ModuleAliasDict) (w : World)
  : World :=
  mkWorld (modules w) (ctors w)
    (setInstance h (addAliases aliases (instances w h)) (instances w))
    (nextInstance w).

Definition callAddPath (h : InstRef) (path : string) (w : World) : World :=
  let '(i, heap) := addPath path (instances w h) (modules w) in
  mkWorld heap (ctors w) (setInstance h i (instances w)) (nextInstance w).

Definition callResolveFilename (c : CtorRef) (request : string)
  (parent : option ModRef) (args : list JsValue) (w : World)
  : Completion string * World :=
  let '(r, heap) :=
    capturedResolveFilename w (_resolveFilename (ctors w c))
      request parent args (modules w) in
  (r, mkWorld heap (ctors w) (instances w) (nextInstance w)).

Definition callNodeModulePaths (c : CtorRef) (from : string) (w : World)
  : list string :=
  capturedNodeModulePaths w (_nodeModulePaths (ctors w c)) from.

(** ** Notions the properties are stated with *)

(** The alias table is well formed: the dictionary has each name once, and
    the name index is the sorted list of its keys. *)
Definition AliasTableInv (self : ModuleAlias) : Prop :=
  NoDup (map fst (moduleAliases self)) /\
  moduleAliasNames self = Str.sort (JsObject.keys (moduleAliases self)).

(** The Path Set holds no directory twice. *)
Definition PathSetInv (self : ModuleAlias) : Prop := NoDup (modulePaths self).

(** The fields of an instance before any registration. *)
Definition freshInstance (m : ModRef) (c : CtorRef)
  (oldPaths : FuncNodeModulePaths) (oldResolve : FuncResolveFileName)
  : ModuleAlias :=
  mkModuleAlias m c oldPaths oldResolve [] JsObject.empty ObjectPrototype [].

(** Registration calls and their effect, in call order. *)
Inductive Registration : Type :=
| AddAlias (alias : string) (target : AliasTarget)
| AddAliases (aliases : ModuleAliasDict).

Definition register (self : ModuleAlias) (r : Registration) : ModuleAlias :=
  match r with
  | AddAlias alias target => addAlias alias target self
  | AddAliases aliases => addAliases aliases self
  end.

Definition registerAll (rs : list Registration) (self : ModuleAlias)
  : ModuleAlias :=
  fold_left register rs self.

(** The error a registration call ends with, if any. *)
Definition registerThrows (self : ModuleAlias) (r : Registration) : option Exn :=
  match r with
  | AddAlias alias target => addAliasThrows alias target self
  | AddAliases aliases => addAliasesThrows aliases self
  end.

(** The target a call names for [name], if it names one. *)
Definition registered (r : Registration) (name : string) : option AliasTarget :=
  match r with
  | AddAlias alias target => if String.eqb name alias then Some target else None
  | AddAliases aliases => JsObject.get name aliases
  end.

(** A name that an assignment which completes leaves in the dictionary:
    any but a [__proto__] the dictionary lacks. *)
Definition assignable (n : string) (self : ModuleAlias) : Prop :=
  n <> "__proto__" \/ In n (map fst (moduleAliases self)).

(** A request starts with an alias. *)
Definition startsWith (alias request : string) : Prop :=
  exists rest, request = alias ++ rest.

(** One alias is a proper prefix of another. *)
Definition properPrefix (a b : string) : Prop :=
  exists r, r <> "" /\ b = a ++ r.

(** [from] lies inside a dependency directory: one of its segments is
    [node_modules]. *)
Definition insideDependencyDirectory (from : string) : bool :=
  existsb (String.eqb "node_modules") (Path.split from).

(** [needle] occurs somewhere in [s]. *)
Definition occursIn (needle s : string) : Prop :=
  exists pre post, s = pre ++ needle ++ post.

(** Order-preserving removal of repeated entries: an entry stays where it
    first occurs. *)
Fixpoint dedup (seen l : list string) : list string :=
  match l with
  | [] => []
  | x :: l' =>
      if existsb (String.eqb x) seen then dedup seen l'
      else x :: dedup (seen ++ [x])%list l'
  end.

(** The de-duplicated union, entries of [first] before those of [second]. *)
Definition orderedUnion (first second : list string) : list string :=
  dedup [] (first ++ second)%list.

(** A directory name that is neither an array index nor [__proto__]. *)
Definition ordinaryName (k : string) : Prop :=
  JsObject.arrayIndex k = None /\ k <> "__proto__".

(** A plain path segment: not empty, not a dot segment, without separator. *)
Definition plainSegment (seg : string) : Prop :=
  seg <> "" /\ seg <> "." /\ seg <> ".." /\ Path.hasSep seg = false.

(** The segments [normalizeString] retains, last one first: none is empty,
    a dot or split by a separator, and [..] stays only where the path may
    climb above its root, below every other segment. *)
Fixpoint retained (allowAboveRoot : bool) (res : list string) : Prop :=
  match res with
  | [] => True
  | top :: below =>
      top <> "" /\ top <> "." /\ Path.hasSep top = false /\
      retained allowAboveRoot below /\
      (top = ".." -> allowAboveRoot = true /\ Forall (eq "..") below)
  end.

(** A segment that is not empty and holds no separator. *)
Definition soundSegment (seg : string) : Prop :=
  seg <> "" /\ Path.hasSep seg = false.

(** The text of a normalized path with the given segments. *)
Definition render (abs trailing : bool) (segs : list string) : string :=
  match segs with
  | [] => if abs then "/" else if trailing then "./" else "."
  | _ => (if abs then "/" else "") ++ String.concat "/" segs
         ++ (if trailing then "/" else "")
  end.

(** A path without superfluous parts: normalizing it changes nothing. *)
Definition normalized (p : string) : Prop := Path.normalize p = p.

(** De-duplicated insertion at the front of a list. *)
Definition frontInsert (x : string) (l : list string) : list string :=
  if in_dec string_dec x l then l else x :: l.

(** The target the constructor registers for a declared one. *)
Definition rebased (base target : string) : string :=
  if Path.isAbsolute target then Path.join base target else target.

(** The declared directories the constructor registers. *)
Definition registeredDirectories (dirs : option (list string)) : list string :=
  filter (fun dir => negb (String.eqb dir "node_modules"))
    match dirs with Some ds => ds | None => [] end.

(** Calls of the public methods on one instance, in call order. *)
Inductive ApiCall : Type :=
| CallAddPath (path : string)
| CallAddAlias (alias : string) (target : AliasTarget)
| CallAddAliases (aliases : ModuleAliasDict).

Definition apiCall (st : ModuleAlias * ModHeap) (c : ApiCall)
  : ModuleAlias * ModHeap :=
  match c with
  | CallAddPath path => addPath path (fst st) (snd st)
  | CallAddAlias alias target => (addAlias alias target (fst st), snd st)
  | CallAddAliases aliases => (addAliases aliases (fst st), snd st)
  end.

Definition apiCalls (cs : list ApiCall) (st : ModuleAlias * ModHeap)
  : ModuleAlias * ModHeap :=
  fold_left apiCall cs st.

(** The owning module's own list, when it has one, holds every directory
    of the Path Set. *)
Definition PathsThreaded (self : ModuleAlias) (heap : ModHeap) : Prop :=
  forall own, paths (heap (module self)) = Some own ->
              incl (modulePaths self) own.

(** ** Sample runtime, for the concrete cases *)

Module Sample.

(** A delegate that answers with the request it is given. *)
Definition echoResolve : FuncResolveFileName :=
  fun request _ _ heap => (Return request, heap).

Definition nativePaths : FuncNodeModulePaths :=
  fun from => [from ++ "/node_modules"; "/node_modules"].

Definition heap : ModHeap :=
  fun _ => mkNodeModule "/app/index.js"
             (Some ["/app/node_modules"; "/node_modules"]) 0.

Definition fresh : ModuleAlias := freshInstance 0 0 nativePaths echoResolve.

(** Two nested aliases, and a third one nested further. *)
Definition nested : ModuleAlias :=
  registerAll [AddAlias "@a" (Static "/x"); AddAlias "@a/sub" (Static "/y")]
    fresh.

Definition nested3 : ModuleAlias :=
  addAlias "@a/sub/file" (Static "/z") nested.

(** The alias of the package documentation. *)
Definition rooted : ModuleAlias := addAlias "@root" (Static ".") fresh.

Definition client : ModuleAlias := addAlias "@client" (Static "/src/client") fresh.

(** A handler that returns no path, and one that does. *)
Definition silent : ModuleAlias :=
  addAlias "@src" (Handler (fun _ _ _ => VUndefined)) fresh.

Definition dynamic : ModuleAlias :=
  addAlias "@src"
    (Handler (fun from _ _ =>
                if String.prefix "/others" from then VString "/others"
                else VString "/src")) fresh.

(** Directories registered in this order: [0], then [lib]. *)
Definition numbered : ModuleAlias :=
  fst (addPath "lib" (fst (addPath "0" fresh heap)) (snd (addPath "0" fresh heap))).

Definition withLib : ModuleAlias := fst (addPath "/app/lib" fresh heap).

Definition world : World :=
  mkWorld heap
    (fun _ => mkCtor (Native nativePaths) (Native echoResolve) None)
    (fun _ => fresh) 0.

(** A parent module that lists [lib] already. *)
Definition heapWithLib : ModHeap :=
  fun _ => mkNodeModule "/app/index.js" (Some ["/app/node_modules"; "lib"]) 0.

Definition manifest : PackageJson :=
  mkPackageJson [("@root", "."); ("@client", "/src/client")]
    (Some ["node_modules"; "node_modules_custom"]).

Definition env : Env :=
  mkEnv None "/app/node_modules/ts-module-alias/dist" "/app"
    (fun file => if String.eqb file "/app/package.json"
                 then Package manifest else RequireThrows).

(** A later caller, without manifest, that names no parent itself. *)
Definition env2 : Env := mkEnv (Some 1) "/lib" "/" (fun _ => RequireThrows).

(** The world after [new ModuleAlias(module)], and after registering a
    handler that returns no path. *)
Definition installed : World := snd (new_ModuleAlias env (Some 0) None world).

Definition installedSilent : World :=
  callAddAlias 0 "@src" (Handler (fun _ _ _ => VUndefined)) installed.

End Sample.

(** Further concrete cases. *)

Module Cases.

(** A world in which every [require] of a manifest throws. *)
Definition failed : World :=
  snd (new_ModuleAlias Sample.env2 None None Sample.world).

(** An instance with two directories and one alias. *)
Definition busy : ModuleAlias * ModHeap :=
  apiCalls [CallAddPath "/app/lib"; CallAddAlias "@a" (Static "/x");
            CallAddPath "/app/./vendor/"]
    (Sample.fresh, Sample.heap).

(** A manifest found in the second candidate directory only. *)
Definition secondOnly : Env :=
  mkEnv (Some 0) "/opt/tool/dist" "/work"
    (fun file => if String.eqb file "/work/package.json"
                 then Package Sample.manifest else RequireThrows).

(** A manifest that declares an alias named [__proto__]. *)
Definition protoManifest : PackageJson :=
  mkPackageJson [("@root", "."); ("__proto__", "/lib")] None.

Definition protoEnv : Env :=
  mkEnv None "/app/node_modules/ts-module-alias/dist" "/app"
    (fun file => if String.eqb file "/app/package.json"
                 then Package protoManifest else RequireThrows).


End Cases.

(** * Facts *)

(** ** Strings *)

Section StringFacts.

Lemma append_nil_r (s : string) : s ++ "" = s.
Proof. induction s as [|c s IH]; simpl; [reflexivity | now rewrite IH]. Qed.

Lemma append_assoc (a b c : string) : (a ++ b) ++ c = a ++ (b ++ c).
Proof. induction a as [|x a IH]; simpl; [reflexivity | now rewrite IH]. Qed.

Lemma length_append (a b : string) :
  String.length (a ++ b) = String.length a + String.length b.
Proof. induction a as [|x a IH]; simpl; [reflexivity | now rewrite IH]. Qed.

Lemma append_inv_head (a r r' : string) : a ++ r = a ++ r' -> r = r'.
Proof.
  induction a as [|x a IH]; simpl; intros H; [exact H | ].
  injection H as H. now apply IH.
Qed.

Lemma prefix_append (a r : string) : String.prefix a (a ++ r) = true.
Proof.
  induction a as [|x a IH]; simpl; [now destruct r | ].
  destruct (ascii_dec x x) as [_|N]; [exact IH | now elim N].
Qed.

Lemma prefix_inv (a p : string) :
  String.prefix a p = true -> exists r, p = a ++ r.
Proof.
  revert p; induction a as [|x a IH]; intros p H.
  - now exists p.
  - destruct p as [|y p]; simpl in H; [discriminate | ].
    destruct (ascii_dec x y) as [->|_]; [ | discriminate].
    destruct (IH _ H) as [r ->]. now exists r.
Qed.

Lemma prefix_iff (a p : string) :
  String.prefix a p = true <-> exists r, p = a ++ r.
Proof.
  split; [apply prefix_inv | intros [r ->]; apply prefix_append].
Qed.

Lemma indexOf_zero (a p : string) :
  Str.indexOf a p = Some 0 <-> String.prefix a p = true.
Proof.
  unfold Str.indexOf. destruct p as [|y p].
  - destruct a; simpl; split; congruence.
  - cbn [String.index].
    destruct (String.prefix a (String y p)); [tauto | ].
    destruct (String.index 0 a p); split; congruence.
Qed.

Lemma substr_append (a r : string) : Str.substr (String.length a) (a ++ r) = r.
Proof. induction a as [|x a IH]; simpl; [now destruct r | exact IH]. Qed.

Lemma get_append (a r : string) :
  String.get (String.length a) (a ++ r) = String.get 0 r.
Proof. induction a as [|x a IH]; simpl; [reflexivity | exact IH]. Qed.

Lemma length_zero (s : string) : String.length s = 0 -> s = "".
Proof. destruct s; simpl; [reflexivity | discriminate]. Qed.

End StringFacts.

(** The boundary rule in closed form: the request is the alias itself, or
    the alias followed by a separator and anything. *)
Lemma isPathMatchesAlias_iff (path alias : string) :
  isPathMatchesAlias path alias = true <->
  path = alias \/ exists rest, path = alias ++ "/" ++ rest.
Proof.
  unfold isPathMatchesAlias. split.
  - destruct (Str.indexOf alias path) as [[|n]|] eqn:E; try discriminate.
    apply indexOf_zero, prefix_inv in E. destruct E as [r ->].
    rewrite length_append. unfold Str.charAtIs. rewrite get_append.
    intros H. apply orb_true_iff in H. destruct H as [H|H].
    + apply Nat.eqb_eq in H. left.
      assert (String.length r = 0) by lia.
      rewrite (length_zero r) by assumption. apply append_nil_r.
    + right. destruct r as [|c r]; simpl in H; [discriminate | ].
      apply Ascii.eqb_eq in H. subst c. now exists r.
  - intros [->|[rest ->]].
    + assert (E : Str.indexOf alias alias = Some 0).
      { apply indexOf_zero. rewrite <- (append_nil_r alias) at 2.
        apply prefix_append. }
      rewrite E, Nat.eqb_refl. reflexivity.
    + assert (E : Str.indexOf alias (alias ++ "/" ++ rest) = Some 0)
        by apply indexOf_zero, prefix_append.
      rewrite E. unfold Str.charAtIs. rewrite get_append. simpl.
      apply orb_true_r.
Qed.

(** ** Code-unit order and [sort] *)

Section OrderFacts.

Lemma ascii_compare_refl (c : ascii) : Ascii.compare c c = Eq.
Proof. unfold Ascii.compare. apply N.compare_refl. Qed.

Lemma compare_refl (s : string) : String.compare s s = Eq.
Proof.
  induction s as [|c s IH]; simpl; [reflexivity | ].
  now rewrite ascii_compare_refl.
Qed.

Lemma sle_refl (s : string) : sle s s.
Proof. unfold sle, String.leb. now rewrite compare_refl. Qed.

Lemma compare_lt_trans (a b c : string) :
  String.compare a b = Lt -> String.compare b c = Lt -> String.compare a c = Lt.
Proof.
  revert b c; induction a as [|x a IH]; intros [|y b] [|z c]; simpl;
    try congruence.
  unfold Ascii.compare.
  destruct (N.compare_spec (N_of_ascii x) (N_of_ascii y)) as [Exy|Lxy|Gxy];
    destruct (N.compare_spec (N_of_ascii y) (N_of_ascii z)) as [Eyz|Lyz|Gyz];
    try congruence; intros Hab Hbc.
  - rewrite Exy, Eyz, N.compare_refl. now apply (IH b).
  - rewrite Exy. now apply N.compare_lt_iff in Lyz as ->.
  - rewrite <- Eyz. now apply N.compare_lt_iff in Lxy as ->.
  - assert (L : (N_of_ascii x < N_of_ascii z)%N) by lia.
    now apply N.compare_lt_iff in L as ->.
Qed.

Lemma sle_trans (a b c : string) : sle a b -> sle b c -> sle a c.
Proof.
  unfold sle, String.leb. intros Hab Hbc.
  destruct (String.compare a b) eqn:Eab; try discriminate;
    destruct (String.compare b c) eqn:Ebc; try discriminate.
  - apply String.compare_eq_iff in Eab, Ebc. subst. now rewrite compare_refl.
  - apply String.compare_eq_iff in Eab. subst. now rewrite Ebc.
  - apply String.compare_eq_iff in Ebc. subst. now rewrite Eab.
  - now rewrite (compare_lt_trans a b c).
Qed.

Lemma sle_antisym (a b : string) : sle a b -> sle b a -> a = b.
Proof. apply String.leb_antisym. Qed.

Lemma sle_total (a b : string) : sle a b \/ sle b a.
Proof. apply String.leb_total. Qed.

(** A string is not above any of its extensions. *)
Lemma sle_append (a r : string) : sle a (a ++ r).
Proof.
  unfold sle, String.leb.
  induction a as [|x a IH]; simpl; [now destruct r | ].
  now rewrite ascii_compare_refl.
Qed.

(** Two prefixes of one string: the shorter is a prefix of the longer. *)
Lemma prefixes_nested (a b ra rb : string) :
  a ++ ra = b ++ rb -> String.length a <= String.length b ->
  exists r, b = a ++ r.
Proof.
  revert b; induction a as [|x a IH]; intros b E L.
  - now exists b.
  - destruct b as [|y b]; simpl in L; [lia | ].
    simpl in E. injection E as -> E.
    destruct (IH b E) as [r ->]; [lia | ]. now exists r.
Qed.

Lemma insert_perm (x : string) (l : list string) :
  Permutation (x :: l) (Str.insert x l).
Proof.
  induction l as [|y l IH]; simpl; [reflexivity | ].
  destruct (String.leb x y); [reflexivity | ].
  rewrite perm_swap. now constructor.
Qed.

Lemma sort_perm (l : list string) : Permutation l (Str.sort l).
Proof.
  induction l as [|x l IH]; simpl; [constructor | ].
  rewrite <- insert_perm. now constructor.
Qed.

Lemma sort_In (x : string) (l : list string) : In x (Str.sort l) <-> In x l.
Proof.
  split; apply Permutation_in; [symmetry | ]; apply sort_perm.
Qed.

Lemma insert_sorted (x : string) (l : list string) :
  StronglySorted sle l -> StronglySorted sle (Str.insert x l).
Proof.
  induction 1 as [|y l Hl IH Hy]; simpl.
  - repeat constructor.
  - destruct (String.leb x y) eqn:E.
    + constructor; [now constructor | ].
      constructor; [exact E | ].
      eapply Forall_impl; [ | exact Hy]. intros z Hz.
      now apply (sle_trans x y z).
    + constructor; [exact IH | ].
      apply (Permutation_Forall (insert_perm x l)).
      constructor; [ | exact Hy].
      destruct (sle_total x y) as [H|H]; [unfold sle in H; congruence | exact H].
Qed.

Lemma sort_sorted (l : list string) : StronglySorted sle (Str.sort l).
Proof.
  induction l as [|x l IH]; simpl; [constructor | now apply insert_sorted].
Qed.

Lemma sort_NoDup (l : list string) : NoDup l -> NoDup (Str.sort l).
Proof. apply Permutation_NoDup, sort_perm. Qed.

Lemma find_append (P : string -> bool) (l1 l2 : list string) :
  find P (l1 ++ l2)%list
  = match find P l1 with Some x => Some x | None => find P l2 end.
Proof.
  induction l1 as [|x l1 IH]; simpl; [reflexivity | ].
  now destruct (P x).
Qed.

(** Walking a sorted list from its end, the first hit is the greatest
    element that satisfies the test. *)
Lemma find_rev_sorted (P : string -> bool) (l : list string) (c : string) :
  StronglySorted sle l -> find P (rev l) = Some c ->
  In c l /\ P c = true /\ forall b, In b l -> P b = true -> sle b c.
Proof.
  induction 1 as [|x l Hl IH Hx]; simpl; [discriminate | ].
  rewrite find_append. destruct (find P (rev l)) as [c'|] eqn:E.
  - intros [= ->]. destruct (IH eq_refl) as (Hin & HP & Hmax).
    repeat split; [now right | exact HP | ].
    intros b [<-|Hb] Pb; [ | now apply Hmax].
    rewrite Forall_forall in Hx. now apply Hx.
  - simpl. destruct (P x) eqn:Px; [ | discriminate].
    intros [= ->]. repeat split; [now left | exact Px | ].
    intros b [<-|Hb] Pb; [apply sle_refl | ].
    apply in_rev in Hb. rewrite (find_none _ _ E b Hb) in Pb. discriminate.
Qed.

Lemma find_rev_none (P : string -> bool) (l : list string) :
  find P (rev l) = None <-> forall b, In b l -> P b = false.
Proof.
  split.
  - intros E b Hb. apply (find_none _ _ E). now apply in_rev in Hb.
  - intros H. destruct (find P (rev l)) as [c|] eqn:E; [ | reflexivity].
    apply find_some in E. destruct E as [Hin HP].
    apply in_rev in Hin. rewrite (H c Hin) in HP. discriminate.
Qed.

End OrderFacts.

(** ** Property lists *)

Section JsObjectFacts.

Context {V : Type}.
Implicit Types (o : JsObject.t V) (k : string) (v : V).

Lemma get_None_iff k o : JsObject.get k o = None <-> ~ In k (map fst o).
Proof.
  induction o as [|[k' v'] o IH]; simpl; [tauto | ].
  destruct (String.eqb_spec k k') as [->|N].
  - split; [discriminate | intros H; elim H; now left].
  - rewrite IH. split; [intros H [E|I]; [now elim N | tauto] | tauto].
Qed.

Lemma has_true_iff k o : JsObject.has k o = true <-> In k (map fst o).
Proof.
  unfold JsObject.has. destruct (JsObject.get k o) eqn:E.
  - split; [intros _ | reflexivity].
    destruct (in_dec string_dec k (map fst o)) as [I|I]; [exact I | ].
    apply get_None_iff in I. congruence.
  - apply get_None_iff in E. split; [discriminate | tauto].
Qed.

Lemma map_fst_replace k v o : map fst (JsObject.replace k v o) = map fst o.
Proof.
  induction o as [|[k' v'] o IH]; simpl; [reflexivity | ].
  destruct (String.eqb k k'); simpl; [reflexivity | now rewrite IH].
Qed.

Lemma get_replace_same k v o :
  In k (map fst o) -> JsObject.get k (JsObject.replace k v o) = Some v.
Proof.
  induction o as [|[k' v'] o IH]; simpl; [tauto | ].
  destruct (String.eqb_spec k k') as [->|N]; simpl.
  - now rewrite String.eqb_refl.
  - intros [E|I]; [now elim N | ].
    apply String.eqb_neq in N. rewrite N. now apply IH.
Qed.

Lemma get_replace_other k k' v o :
  k' <> k -> JsObject.get k' (JsObject.replace k v o) = JsObject.get k' o.
Proof.
  intros N. induction o as [|[k0 v0] o IH]; simpl; [reflexivity | ].
  destruct (String.eqb_spec k k0) as [->|N0]; simpl.
  - apply String.eqb_neq in N. now rewrite N.
  - now rewrite IH.
Qed.

Lemma get_snoc k k' v o :
  JsObject.get k (o ++ [(k', v)])%list
  = match JsObject.get k o with
    | Some x => Some x
    | None => if String.eqb k k' then Some v else None
    end.
Proof.
  induction o as [|[k0 v0] o IH]; simpl; [reflexivity | ].
  now destruct (String.eqb k k0).
Qed.

(** [o\[k\] = v; o\[k\]] gives [v], except for a [__proto__] that [o]
    does not own. *)
Lemma get_set_same k v o :
  k <> "__proto__" \/ In k (map fst o) ->
  JsObject.get k (JsObject.set k v o) = Some v.
Proof.
  intros H. unfold JsObject.set.
  destruct (JsObject.has k o) eqn:E.
  - apply get_replace_same. now apply has_true_iff.
  - assert (NI : ~ In k (map fst o)).
    { intros I. apply has_true_iff in I. congruence. }
    destruct H as [H|H]; [ | tauto].
    apply String.eqb_neq in H. rewrite H, get_snoc.
    apply get_None_iff in NI. now rewrite NI, String.eqb_refl.
Qed.

Lemma get_set_other k k' v o :
  k' <> k -> JsObject.get k' (JsObject.set k v o) = JsObject.get k' o.
Proof.
  intros N. unfold JsObject.set.
  destruct (JsObject.has k o); [now apply get_replace_other | ].
  destruct (String.eqb k "__proto__"); [reflexivity | ].
  rewrite get_snoc. apply String.eqb_neq in N. rewrite N.
  now destruct (JsObject.get k' o).
Qed.

(** The own names after [o\[k\] = v]. *)
Lemma map_fst_set k v o :
  map fst (JsObject.set k v o)
  = if JsObject.has k o then map fst o
    else if String.eqb k "__proto__" then map fst o
    else (map fst o ++ [k])%list.
Proof.
  unfold JsObject.set. destruct (JsObject.has k o).
  - apply map_fst_replace.
  - destruct (String.eqb k "__proto__"); [reflexivity | ].
    now rewrite map_app.
Qed.

Lemma set_NoDup k v o :
  NoDup (map fst o) -> NoDup (map fst (JsObject.set k v o)).
Proof.
  intros H. rewrite map_fst_set. destruct (JsObject.has k o) eqn:E; [exact H | ].
  destruct (String.eqb k "__proto__"); [exact H | ].
  apply NoDup_app; [exact H | repeat constructor; simpl; tauto | ].
  intros x Hx [<-|[]]. apply has_true_iff in Hx. congruence.
Qed.

Lemma insertIndex_perm (x : N * string) (l : list (N * string)) :
  Permutation (x :: l) (JsObject.insertIndex x l).
Proof.
  induction l as [|y l IH]; simpl; [reflexivity | ].
  destruct (fst x <=? fst y)%N; [reflexivity | ].
  rewrite perm_swap. now constructor.
Qed.

(** [Object.keys] lists every own name once. *)
Lemma keys_replace k v o :
  JsObject.keys (JsObject.replace k v o) = JsObject.keys o.
Proof.
  unfold JsObject.keys.
  assert (E : JsObject.indexKeys (JsObject.replace k v o) = JsObject.indexKeys o
              /\ JsObject.nameKeys (JsObject.replace k v o) = JsObject.nameKeys o).
  { induction o as [|[k' v'] o [IH1 IH2]]; simpl; [now split | ].
    destruct (String.eqb k k'); simpl; [now split | ].
    rewrite IH1, IH2. now split. }
  destruct E as [-> ->]. reflexivity.
Qed.

Lemma keys_perm o : Permutation (JsObject.keys o) (map fst o).
Proof.
  unfold JsObject.keys. induction o as [|[k v] o IH]; simpl; [constructor | ].
  destruct (JsObject.arrayIndex k) as [n|].
  - rewrite <- insertIndex_perm. simpl. now constructor.
  - rewrite <- Permutation_middle. now constructor.
Qed.

Lemma keys_In k o : In k (JsObject.keys o) <-> In k (map fst o).
Proof.
  split; apply Permutation_in; [ | symmetry]; apply keys_perm.
Qed.

Lemma keys_NoDup o : NoDup (map fst o) -> NoDup (JsObject.keys o).
Proof. apply Permutation_NoDup. symmetry. apply keys_perm. Qed.

(** Without array indices among the names, [Object.keys] is the creation
    order. *)
Lemma keys_ordinary o :
  Forall (fun k => JsObject.arrayIndex k = None) (map fst o) ->
  JsObject.keys o = map fst o.
Proof.
  unfold JsObject.keys. induction o as [|[k v] o IH]; simpl; [reflexivity | ].
  intros H. inversion H as [|? ? Hk Ho]; subst. rewrite Hk.
  specialize (IH Ho).
  assert (E : JsObject.indexKeys o = []).
  { clear IH H Hk. induction o as [|[k0 v0] o IH0]; simpl; [reflexivity | ].
    inversion Ho as [|? ? Hk0 Ho']; subst. rewrite Hk0. now apply IH0. }
  rewrite E in *. simpl in *. now rewrite IH.
Qed.

End JsObjectFacts.

(** ** The alias table *)

Section AliasTableFacts.

Implicit Types (self : ModuleAlias) (n alias : string) (t : AliasTarget).

Lemma freshInstance_inv m c oldPaths oldResolve :
  AliasTableInv (freshInstance m c oldPaths oldResolve).
Proof. split; [constructor | reflexivity]. Qed.

(** An assignment that completes leaves the own properties [JsObject.set]
    describes. *)
Lemma assignAlias_own alias t proto (d : ModuleAliasDict) proto' d' :
  assignAlias alias t proto d = Return (proto', d') ->
  d' = JsObject.set alias t d.
Proof.
  unfold assignAlias, JsObject.set.
  destruct (JsObject.has alias d); [now intros [= _ <-] | ].
  destruct (String.eqb alias "__proto__").
  - destruct t; now intros [= _ <-].
  - destruct proto; [now intros [= _ <-] | ].
    destruct (functionReadOnly alias); [discriminate | now intros [= _ <-]].
Qed.

(** An assignment throws only for a new name that a function prototype
    keeps read-only. *)
Lemma assignAlias_throw alias t proto (d : ModuleAliasDict) e :
  assignAlias alias t proto d = Throw e ->
  e = TypeError /\ ~ In alias (map fst d) /\ alias <> "__proto__" /\
  proto = FunctionPrototype /\ functionReadOnly alias = true.
Proof.
  unfold assignAlias. destruct (JsObject.has alias d) eqn:H; [discriminate | ].
  assert (NI : ~ In alias (map fst d)).
  { intros Y. apply has_true_iff in Y. congruence. }
  destruct (String.eqb_spec alias "__proto__") as [E|N].
  - destruct t; discriminate.
  - destruct proto; [discriminate | ].
    destruct (functionReadOnly alias) eqn:R; [ | discriminate].
    intros [= <-]. repeat split; auto.
Qed.

Lemma assignAlias_known alias t proto (d : ModuleAliasDict) :
  In alias (map fst d) ->
  assignAlias alias t proto d = Return (proto, JsObject.replace alias t d).
Proof.
  intros Y. apply has_true_iff in Y. unfold assignAlias. now rewrite Y.
Qed.

(** The two ways [addAlias] can end. *)
Lemma addAlias_cases alias t self :
  (addAliasCall alias t self = Throw TypeError /\
   ~ In alias (map fst (moduleAliases self)) /\ alias <> "__proto__" /\
   moduleAliasesPrototype self = FunctionPrototype /\
   functionReadOnly alias = true) \/
  (exists proto,
      addAliasCall alias t self
      = Return (withAliases proto (JsObject.set alias t (moduleAliases self))
                  (Str.sort (JsObject.keys
                               (JsObject.set alias t (moduleAliases self))))
                  self)).
Proof.
  unfold addAliasCall.
  destruct (assignAlias alias t (moduleAliasesPrototype self) (moduleAliases self))
    as [[proto d]|e] eqn:E.
  - right. exists proto. now rewrite (assignAlias_own _ _ _ _ _ _ E).
  - left. destruct (assignAlias_throw _ _ _ _ _ E) as (-> & H). tauto.
Qed.

Lemma addAlias_result alias t self self' :
  addAliasCall alias t self = Return self' ->
  addAlias alias t self = self' /\ addAliasThrows alias t self = None.
Proof. unfold addAlias, addAliasThrows. now intros ->. Qed.

Lemma addAlias_thrown alias t self e :
  addAliasCall alias t self = Throw e ->
  addAlias alias t self = self /\ addAliasThrows alias t self = Some e.
Proof. unfold addAlias, addAliasThrows. now intros ->. Qed.

Lemma addAlias_dictionary alias t self :
  moduleAliases (addAlias alias t self) = moduleAliases self \/
  moduleAliases (addAlias alias t self)
  = JsObject.set alias t (moduleAliases self).
Proof.
  destruct (addAlias_cases alias t self) as [(E & _)|[proto E]].
  - left. now rewrite (proj1 (addAlias_thrown _ _ _ _ E)).
  - right. now rewrite (proj1 (addAlias_result _ _ _ _ E)).
Qed.

Lemma addAlias_inv alias t self :
  AliasTableInv self -> AliasTableInv (addAlias alias t self).
Proof.
  intros I. destruct (addAlias_cases alias t self) as [(E & _)|[proto E]].
  - now rewrite (proj1 (addAlias_thrown _ _ _ _ E)).
  - rewrite (proj1 (addAlias_result _ _ _ _ E)). destruct I as [ND _].
    split; simpl; [now apply set_NoDup | reflexivity].
Qed.

Lemma own_addAlias n alias t self :
  In n (map fst (moduleAliases self)) ->
  In n (map fst (moduleAliases (addAlias alias t self))).
Proof.
  intros H. destruct (addAlias_dictionary alias t self) as [-> | ->];
    [exact H | ].
  rewrite map_fst_set.
  destruct (JsObject.has alias _); [exact H | ].
  destruct (String.eqb alias "__proto__"); [exact H | ].
  apply in_or_app. now left.
Qed.

Lemma own_addAlias_inv n alias t self :
  In n (map fst (moduleAliases (addAlias alias t self))) ->
  In n (map fst (moduleAliases self)) \/ (n = alias /\ n <> "__proto__").
Proof.
  destruct (addAlias_dictionary alias t self) as [-> | ->]; [tauto | ].
  rewrite map_fst_set.
  destruct (JsObject.has alias _); [tauto | ].
  destruct (String.eqb_spec alias "__proto__") as [E|N]; [tauto | ].
  intros H. apply in_app_or in H. destruct H as [H|[<-|[]]]; [tauto | ].
  right. now split.
Qed.

Lemma get_addAlias_other n alias t self :
  n <> alias ->
  JsObject.get n (moduleAliases (addAlias alias t self))
  = JsObject.get n (moduleAliases self).
Proof.
  intros N. destruct (addAlias_dictionary alias t self) as [-> | ->];
    [reflexivity | now apply get_set_other].
Qed.

Lemma get_addAlias_same alias t self :
  assignable alias self -> addAliasThrows alias t self = None ->
  JsObject.get alias (moduleAliases (addAlias alias t self)) = Some t.
Proof.
  intros A T. destruct (addAlias_cases alias t self) as [(E & _)|[proto E]].
  - rewrite (proj2 (addAlias_thrown _ _ _ _ E)) in T. discriminate.
  - rewrite (proj1 (addAlias_result _ _ _ _ E)). simpl.
    now apply get_set_same.
Qed.

(** A name the dictionary owns is assigned without error. *)
Lemma addAlias_known alias t self :
  In alias (map fst (moduleAliases self)) -> addAliasThrows alias t self = None.
Proof.
  intros Y. unfold addAliasThrows, addAliasCall.
  now rewrite (assignAlias_known alias t _ _ Y).
Qed.

Lemma addAlias_frame alias t self :
  module (addAlias alias t self) = module self /\
  ModuleCtor (addAlias alias t self) = ModuleCtor self /\
  oldNodeModulePaths (addAlias alias t self) = oldNodeModulePaths self /\
  oldResolveFilename (addAlias alias t self) = oldResolveFilename self /\
  modulePaths (addAlias alias t self) = modulePaths self.
Proof.
  destruct (addAlias_cases alias t self) as [(E & _)|[proto E]].
  - now rewrite (proj1 (addAlias_thrown _ _ _ _ E)).
  - now rewrite (proj1 (addAlias_result _ _ _ _ E)).
Qed.

(** The loop of [addAliases], over any list of names. *)
Lemma addAliases_loop (aliases : ModuleAliasDict) (ks : list string) self :
  AliasTableInv self ->
  let self' := fst (addAliasesLoop aliases ks self) in
  AliasTableInv self' /\
  (forall n, In n (map fst (moduleAliases self)) ->
             In n (map fst (moduleAliases self'))) /\
  (forall n, In n (map fst (moduleAliases self')) ->
             In n (map fst (moduleAliases self)) \/ n <> "__proto__") /\
  (forall n, ~ In n ks \/ JsObject.get n aliases = None ->
             JsObject.get n (moduleAliases self')
             = JsObject.get n (moduleAliases self)) /\
  (snd (addAliasesLoop aliases ks self) = None ->
   forall n t, assignable n self -> In n ks ->
               JsObject.get n aliases = Some t ->
               JsObject.get n (moduleAliases self') = Some t).
Proof.
  revert self. induction ks as [|k ks IH]; intros self I; cbn zeta.
  - simpl. split; [exact I | ]. repeat split; auto. intros _ n t _ [].
  - cbn [addAliasesLoop].
    destruct (JsObject.get k aliases) as [tk|] eqn:Gk.
    + destruct (addAliasCall k tk self) as [self1|e] eqn:E.
      * destruct (addAlias_result _ _ _ _ E) as [E1 T1].
        assert (I1 : AliasTableInv self1)
          by (rewrite <- E1; now apply addAlias_inv).
        destruct (IH self1 I1) as (I2 & M2 & P2 & U2 & G2). cbn zeta in *.
        split; [exact I2 | ]. split.
        { intros n H. apply M2. rewrite <- E1. now apply own_addAlias. }
        split.
        { intros n H. apply P2 in H. destruct H as [H|H]; [ | tauto].
          rewrite <- E1 in H. apply own_addAlias_inv in H. tauto. }
        split.
        { intros n H.
          assert (Nk : n <> k).
          { intros ->. destruct H as [H|H]; [apply H; now left | congruence]. }
          rewrite U2 by (destruct H as [H|H]; [left; intros Y; apply H; now right
                                              | now right]).
          rewrite <- E1. now apply get_addAlias_other. }
        intros C n t A Hin G.
        assert (A1 : assignable n self1).
        { destruct A as [A|A]; [now left | right].
          rewrite <- E1. now apply own_addAlias. }
        destruct (in_dec string_dec n ks) as [Y|Y]; [now apply (G2 C n t A1 Y) | ].
        destruct Hin as [<-|Hin]; [ | tauto].
        rewrite U2 by now left.
        rewrite <- E1. assert (tk = t) by congruence. subst tk.
        now apply get_addAlias_same.
      * cbn [fst snd]. split; [exact I | ]. split; [auto | ]. split; [auto | ].
        split; [auto | discriminate].
    + destruct (IH self I) as (I2 & M2 & P2 & U2 & G2). cbn zeta in *.
      split; [exact I2 | ]. split; [exact M2 | ]. split; [exact P2 | ].
      split.
      { intros n H. apply U2. destruct H as [H|H]; [left | now right].
        intros Y. apply H. now right. }
      intros C n t A Hin G. destruct Hin as [<-|Hin]; [congruence | ].
      now apply (G2 C n t A Hin G).
Qed.

Lemma addAliases_AliasTableInv (aliases : ModuleAliasDict) self :
  AliasTableInv self -> AliasTableInv (addAliases aliases self).
Proof.
  intros I. unfold addAliases.
  now apply (addAliases_loop aliases (JsObject.keys aliases) self I).
Qed.

(** A call of [addAliases] that completes leaves each of its keys with its
    target. *)
Lemma get_addAliases n t (aliases : ModuleAliasDict) self :
  AliasTableInv self -> assignable n self ->
  addAliasesThrows aliases self = None ->
  JsObject.get n aliases = Some t ->
  JsObject.get n (moduleAliases (addAliases aliases self)) = Some t.
Proof.
  intros I A C G. unfold addAliases, addAliasesThrows in *.
  destruct (addAliases_loop aliases (JsObject.keys aliases) self I)
    as (_ & _ & _ & _ & L).
  apply (L C n t A); [ | exact G]. apply keys_In.
  destruct (in_dec string_dec n (map fst aliases)) as [Y|Y]; [exact Y | ].
  apply get_None_iff in Y. congruence.
Qed.

(** A name that is no key of the argument keeps what it had. *)
Lemma get_addAliases_other n (aliases : ModuleAliasDict) self :
  AliasTableInv self -> JsObject.get n aliases = None ->
  JsObject.get n (moduleAliases (addAliases aliases self))
  = JsObject.get n (moduleAliases self).
Proof.
  intros I G. unfold addAliases.
  destruct (addAliases_loop aliases (JsObject.keys aliases) self I)
    as (_ & _ & _ & U & _).
  apply U. now right.
Qed.

Lemma addAliasesLoop_frame (aliases : ModuleAliasDict) (ks : list string) self :
  let self' := fst (addAliasesLoop aliases ks self) in
  module self' = module self /\
  ModuleCtor self' = ModuleCtor self /\
  oldNodeModulePaths self' = oldNodeModulePaths self /\
  oldResolveFilename self' = oldResolveFilename self /\
  modulePaths self' = modulePaths self.
Proof.
  revert self. induction ks as [|k ks IH]; intros self; cbn zeta.
  - simpl. tauto.
  - cbn [addAliasesLoop]. destruct (JsObject.get k aliases) as [t|]; [ | apply IH].
    destruct (addAliasCall k t self) as [self1|e] eqn:E; [ | simpl; tauto].
    destruct (addAlias_result _ _ _ _ E) as [<- _].
    destruct (IH (addAlias k t self)) as (A & B & C & D & F).
    destruct (addAlias_frame k t self) as (A' & B' & C' & D' & F').
    cbn zeta in *. repeat split; congruence.
Qed.

(** On a dictionary with the prototype of an object literal, string
    targets are assigned without error and leave that prototype. *)
Lemma addAliasesLoop_static (aliases : ModuleAliasDict) (ks : list string) self :
  (forall k t, JsObject.get k aliases = Some t -> exists s, t = Static s) ->
  moduleAliasesPrototype self = ObjectPrototype ->
  snd (addAliasesLoop aliases ks self) = None /\
  moduleAliasesPrototype (fst (addAliasesLoop aliases ks self)) = ObjectPrototype.
Proof.
  intros St. revert self. induction ks as [|k ks IH]; intros self P.
  - now split.
  - cbn [addAliasesLoop]. destruct (JsObject.get k aliases) as [t|] eqn:G;
      [ | now apply IH].
    destruct (St k t G) as [s ->].
    assert (E : exists self1, addAliasCall k (Static s) self = Return self1 /\
                              moduleAliasesPrototype self1 = ObjectPrototype).
    { unfold addAliasCall, assignAlias. rewrite P.
      destruct (JsObject.has k (moduleAliases self)); [eexists; now split | ].
      destruct (String.eqb k "__proto__"); eexists; now split. }
    destruct E as (self1 & -> & P1). now apply IH.
Qed.

Lemma register_facts (r : Registration) self :
  AliasTableInv self ->
  AliasTableInv (register self r) /\
  (forall n, In n (map fst (moduleAliases self)) ->
             In n (map fst (moduleAliases (register self r)))) /\
  (forall n, In n (map fst (moduleAliases (register self r))) ->
             In n (map fst (moduleAliases self)) \/ n <> "__proto__") /\
  (forall n, registered r n = None ->
             JsObject.get n (moduleAliases (register self r))
             = JsObject.get n (moduleAliases self)) /\
  (forall n t, registerThrows self r = None -> assignable n self ->
               registered r n = Some t ->
               JsObject.get n (moduleAliases (register self r)) = Some t).
Proof.
  intros I. destruct r as [alias t|aliases];
    cbn [register registered registerThrows].
  - split; [now apply addAlias_inv | ].
    split; [intros n; apply own_addAlias | ].
    split; [intros n H; apply own_addAlias_inv in H; tauto | ].
    split.
    + intros n H. destruct (String.eqb_spec n alias) as [E|N]; [discriminate | ].
      now apply get_addAlias_other.
    + intros n t' C A H. destruct (String.eqb_spec n alias) as [E|N];
        [ | discriminate].
      subst n. injection H as <-. now apply get_addAlias_same.
  - destruct (addAliases_loop aliases (JsObject.keys aliases) self I)
      as (I' & M & P & _).
    split; [exact I' | ]. split; [exact M | ]. split; [exact P | ].
    split.
    + intros n H. now apply get_addAliases_other.
    + intros n t C A H. now apply get_addAliases.
Qed.

Lemma registerAll_facts (rs : list Registration) self :
  AliasTableInv self ->
  AliasTableInv (registerAll rs self) /\
  (forall n, In n (map fst (moduleAliases self)) ->
             In n (map fst (moduleAliases (registerAll rs self)))) /\
  (forall n, In n (map fst (moduleAliases (registerAll rs self))) ->
             In n (map fst (moduleAliases self)) \/ n <> "__proto__") /\
  (forall n, (forall r, In r rs -> registered r n = None) ->
             JsObject.get n (moduleAliases (registerAll rs self))
             = JsObject.get n (moduleAliases self)).
Proof.
  revert self. induction rs as [|r rs IH]; intros self I.
  - simpl. split; [exact I | repeat split; auto].
  - cbn [registerAll fold_left].
    destruct (register_facts r self I) as (I1 & M1 & P1 & U1 & _).
    destruct (IH (register self r) I1) as (I2 & M2 & P2 & U2).
    unfold registerAll in *.
    split; [exact I2 | ]. split; [auto | ]. split.
    { intros n H. apply P2 in H. destruct H as [H|H]; [ | tauto]. auto. }
    intros n H. rewrite U2 by (intros r' Hr; apply H; now right).
    apply U1, H. now left.
Qed.

(** Under the invariant the name index is sorted, free of repetitions,
    and lists exactly the names the dictionary owns. *)
Lemma inv_names self :
  AliasTableInv self ->
  StronglySorted sle (moduleAliasNames self) /\
  NoDup (moduleAliasNames self) /\
  Permutation (moduleAliasNames self) (map fst (moduleAliases self)) /\
  (forall n, In n (moduleAliasNames self)
             <-> JsObject.get n (moduleAliases self) <> None).
Proof.
  intros [ND ->]. split; [apply sort_sorted | ].
  split; [now apply sort_NoDup, keys_NoDup | ].
  split; [rewrite <- sort_perm; apply keys_perm | ].
  intros n. rewrite sort_In, keys_In, get_None_iff.
  destruct (in_dec string_dec n (map fst (moduleAliases self))); tauto.
Qed.

End AliasTableFacts.

(** ** The alias loop *)

Section AliasLoopFacts.

Implicit Types (self : ModuleAlias) (request alias : string).

Lemma match_startsWith request alias :
  isPathMatchesAlias request alias = true -> startsWith alias request.
Proof.
  intros H. apply isPathMatchesAlias_iff in H.
  destruct H as [->|[rest ->]].
  - exists "". now rewrite append_nil_r.
  - now exists ("/" ++ rest).
Qed.

(** Of two aliases that match one request, the one that is not above the
    other in code-unit order is not longer either. *)
Lemma match_order_length request a b :
  isPathMatchesAlias request a = true ->
  isPathMatchesAlias request b = true ->
  sle a b -> String.length a <= String.length b.
Proof.
  intros Ha Hb L.
  destruct (match_startsWith _ _ Ha) as [ra Ea].
  destruct (match_startsWith _ _ Hb) as [rb Eb].
  destruct (Nat.le_gt_cases (String.length a) (String.length b)) as [|G];
    [assumption | ].
  assert (E : b ++ rb = a ++ ra) by congruence.
  destruct (prefixes_nested b a rb ra E) as [r ->]; [lia | ].
  assert (b ++ r = b) as Hr.
  { apply sle_antisym; [exact L | apply sle_append]. }
  rewrite Hr in G. lia.
Qed.

Lemma match_same_length request a b :
  isPathMatchesAlias request a = true ->
  isPathMatchesAlias request b = true ->
  String.length a = String.length b -> a = b.
Proof.
  intros Ha Hb L.
  destruct (match_startsWith _ _ Ha) as [ra Ea].
  destruct (match_startsWith _ _ Hb) as [rb Eb].
  assert (E : a ++ ra = b ++ rb) by congruence.
  destruct (prefixes_nested a b ra rb E) as [r ->]; [lia | ].
  rewrite length_append in L.
  assert (String.length r = 0) by lia.
  rewrite (length_zero r) by assumption. now rewrite append_nil_r.
Qed.

(** The alias the loop stops at is the longest registered alias that
    matches the request. *)
Lemma matchedAlias_longest self request c :
  AliasTableInv self -> matchedAlias self request = Some c ->
  In c (moduleAliasNames self) /\
  isPathMatchesAlias request c = true /\
  forall b, In b (moduleAliasNames self) ->
            isPathMatchesAlias request b = true ->
            String.length b <= String.length c.
Proof.
  intros I E. destruct (inv_names self I) as (S & _).
  destruct (find_rev_sorted _ _ _ S E) as (Hin & Hc & Hmax).
  repeat split; [exact Hin | exact Hc | ].
  intros b Hb Mb. apply (match_order_length request); auto.
Qed.

Lemma matchedAlias_some self request b :
  In b (moduleAliasNames self) -> isPathMatchesAlias request b = true ->
  exists c, matchedAlias self request = Some c.
Proof.
  intros Hb Mb. unfold matchedAlias.
  destruct (find _ (rev (moduleAliasNames self))) as [c|] eqn:E;
    [now exists c | ].
  rewrite find_rev_none in E. rewrite (E b Hb) in Mb. discriminate.
Qed.

Lemma matchedAlias_none self request :
  matchedAlias self request = None <->
  forall b, In b (moduleAliasNames self) ->
            isPathMatchesAlias request b = false.
Proof. apply find_rev_none. Qed.

Lemma matchedAlias_intro self request c :
  AliasTableInv self ->
  In c (moduleAliasNames self) ->
  isPathMatchesAlias request c = true ->
  (forall b, In b (moduleAliasNames self) ->
             isPathMatchesAlias request b = true ->
             String.length b <= String.length c) ->
  matchedAlias self request = Some c.
Proof.
  intros I Hc Mc Hmax.
  destruct (matchedAlias_some self request c Hc Mc) as [d E].
  destruct (matchedAlias_longest self request d I E) as (Hd & Md & Hmax').
  rewrite E. f_equal. apply (match_same_length request); auto.
  apply Nat.le_antisymm; auto.
Qed.

(** The whole wrapper, once the alias step has produced a request. *)
Lemma resolveFilename_after_rewrite self request request' parent args heap :
  rewriteRequest self request (option_map heap parent) = Return request' ->
  resolveFilename self request parent args heap
  = oldResolveFilename self request' parent args
      match parent with
      | Some p => setPaths p (Some (repairedPaths self (paths (heap p)))) heap
      | None => heap
      end.
Proof. unfold resolveFilename. now intros ->. Qed.

Lemma resolveFilename_throw self request e parent args heap :
  rewriteRequest self request (option_map heap parent) = Throw e ->
  resolveFilename self request parent args heap = (Throw e, heap).
Proof. unfold resolveFilename. now intros ->. Qed.

Lemma rewriteRequest_static self request alias target parent :
  matchedAlias self request = Some alias ->
  JsObject.get alias (moduleAliases self) = Some (Static target) ->
  rewriteRequest self request parent
  = Return (Path.join target (Str.substr (String.length alias) request)).
Proof. unfold rewriteRequest. now intros -> ->. Qed.

Lemma rewriteRequest_nomatch self request parent :
  matchedAlias self request = None ->
  rewriteRequest self request parent = Return request.
Proof. unfold rewriteRequest. now intros ->. Qed.

End AliasLoopFacts.

(** ** Paths *)

Section PathFacts.

Implicit Types (s p seg : string) (segs : list string).

Lemma split_nonempty s : Path.split s <> [].
Proof.
  destruct s as [|c s]; simpl; [discriminate | ].
  destruct (Ascii.eqb c Path.sep); [discriminate | ].
  destruct (Path.split s); discriminate.
Qed.

Lemma split_append_sep a b :
  Path.split (a ++ String Path.sep b) = (Path.split a ++ Path.split b)%list.
Proof.
  induction a as [|c a IH]; simpl; [reflexivity | ].
  destruct (Ascii.eqb c Path.sep); [now rewrite IH | ].
  rewrite IH. destruct (Path.split a) eqn:E; [ | reflexivity].
  now elim (split_nonempty a).
Qed.

Lemma split_noSep s : Path.hasSep s = false -> Path.split s = [s].
Proof.
  induction s as [|c s IH]; simpl; [reflexivity | ].
  intros H. apply orb_false_iff in H. destruct H as [Hc Hs].
  now rewrite Hc, (IH Hs).
Qed.

Lemma split_segments_noSep s :
  Forall (fun seg => Path.hasSep seg = false) (Path.split s).
Proof.
  induction s as [|c s IH]; simpl; [repeat constructor | ].
  destruct (Ascii.eqb c Path.sep) eqn:E; [now constructor | ].
  destruct (Path.split s) as [|seg rest]; [repeat constructor; simpl; now rewrite E | ].
  inversion IH; subst. constructor; [simpl; now rewrite E | assumption].
Qed.

Lemma hasSep_head c s : Path.hasSep (String c s) = false -> c <> Path.sep.
Proof.
  simpl. intros H E. subst c. rewrite Ascii.eqb_refl in H. discriminate.
Qed.

Lemma last_append s1 s2 : s2 <> "" -> Str.last (s1 ++ s2) = Str.last s2.
Proof.
  intros N. induction s1 as [|c s1 IH]; simpl; [reflexivity | ].
  destruct (s1 ++ s2) eqn:E; [ | exact IH].
  destruct s1; simpl in E; [now elim N | discriminate].
Qed.

Lemma last_noSep s c :
  Path.hasSep s = false -> Str.last s = Some c -> c <> Path.sep.
Proof.
  induction s as [|x s IH]; simpl; [discriminate | ].
  intros H. apply orb_false_iff in H. destruct H as [Hx Hs].
  destruct s as [|y s].
  - intros [= ->] E. subst. rewrite Ascii.eqb_refl in Hx. discriminate.
  - intros L. now apply IH.
Qed.

Lemma concat_cons seg segs :
  segs <> [] ->
  String.concat "/" (seg :: segs) = seg ++ "/" ++ String.concat "/" segs.
Proof. destruct segs; [congruence | reflexivity]. Qed.

Lemma concat_app segs1 segs2 :
  segs1 <> [] -> segs2 <> [] ->
  String.concat "/" (segs1 ++ segs2)
  = String.concat "/" segs1 ++ "/" ++ String.concat "/" segs2.
Proof.
  intros N1 N2. induction segs1 as [|x l IH]; [congruence | ].
  destruct l as [|y l].
  - simpl app. now rewrite concat_cons.
  - change ((x :: y :: l) ++ segs2)%list with (x :: (y :: l) ++ segs2)%list.
    rewrite concat_cons by (simpl; discriminate).
    rewrite IH by discriminate.
    rewrite (concat_cons x (y :: l)) by discriminate.
    now rewrite !append_assoc.
Qed.

Lemma split_concat segs :
  segs <> [] -> Forall (fun seg => Path.hasSep seg = false) segs ->
  Path.split (String.concat "/" segs) = segs.
Proof.
  induction segs as [|x l IH]; [congruence | ]. intros _ H.
  inversion H as [|? ? Hx Hl]; subst.
  destruct l as [|y l]; [now apply split_noSep | ].
  rewrite concat_cons by discriminate.
  change ("/" ++ String.concat "/" (y :: l))
    with (String Path.sep (String.concat "/" (y :: l))).
  rewrite split_append_sep, IH by (assumption || discriminate).
  now rewrite split_noSep.
Qed.

Lemma concat_nonempty seg segs :
  seg <> "" -> String.concat "/" (seg :: segs) <> "".
Proof.
  intros N. destruct seg as [|c seg]; [congruence | ].
  destruct segs; simpl; discriminate.
Qed.

Lemma concat_snoc_nonempty segs seg :
  seg <> "" -> String.concat "/" (segs ++ [seg]) <> "".
Proof.
  intros N. destruct segs as [|x l]; [exact N | ].
  change ((x :: l) ++ [seg])%list with (x :: (l ++ [seg]))%list.
  rewrite concat_cons by (destruct l; discriminate).
  destruct x; discriminate.
Qed.

Lemma last_concat segs seg :
  seg <> "" ->
  Str.last (String.concat "/" (segs ++ [seg])) = Str.last seg.
Proof.
  intros N. induction segs as [|x l IH]; [reflexivity | ].
  change ((x :: l) ++ [seg])%list with (x :: (l ++ [seg]))%list.
  rewrite concat_cons by (destruct l; discriminate).
  rewrite last_append.
  - rewrite last_append; [exact IH | now apply concat_snoc_nonempty].
  - discriminate.
Qed.

End PathFacts.

Section NormalizeFacts.

Implicit Types (s p seg : string) (segs res : list string) (allow : bool).

Lemma step_retained allow res seg :
  retained allow res -> Path.hasSep seg = false ->
  retained allow (Path.step allow res seg).
Proof.
  intros R H. unfold Path.step.
  destruct (String.eqb_spec seg "") as [->|N0]; [exact R | ].
  destruct (String.eqb_spec seg ".") as [->|N1]; [exact R | ]. cbn [orb].
  destruct (String.eqb_spec seg "..") as [->|N2].
  - destruct res as [|top below].
    + destruct allow; [ | exact R].
      simpl. repeat split; (discriminate || auto).
    + destruct (String.eqb_spec top "..") as [->|Nt].
      * destruct allow; [ | exact R].
        simpl in R. destruct R as (_ & _ & _ & R' & A).
        destruct (A eq_refl) as [_ F].
        simpl. repeat split; (discriminate || auto).
      * simpl in R. tauto.
  - simpl. split; [exact N0 | ]. split; [exact N1 | ]. split; [exact H | ].
    split; [exact R | ]. intros E. now elim N2.
Qed.

Lemma fold_retained allow segs res :
  retained allow res ->
  Forall (fun seg => Path.hasSep seg = false) segs ->
  retained allow (fold_left (Path.step allow) segs res).
Proof.
  revert res. induction segs as [|seg segs IH]; intros res R F; [exact R | ].
  inversion F; subst. simpl. apply IH; [now apply step_retained | assumption].
Qed.

Lemma retained_segments allow res :
  retained allow res ->
  Forall (fun seg => seg <> "" /\ Path.hasSep seg = false) res.
Proof.
  induction res as [|top below IH]; simpl; [constructor | ].
  intros (N & _ & H & R & _). constructor; auto.
Qed.

(** Retained segments are retained again, as they are. *)
Lemma fold_again allow res :
  retained allow res -> fold_left (Path.step allow) (rev res) [] = res.
Proof.
  induction res as [|top below IH]; [reflexivity | ].
  intros R. simpl in R. destruct R as (N0 & N1 & H & R & A).
  simpl rev. rewrite fold_left_app, (IH R). simpl. unfold Path.step.
  apply String.eqb_neq in N0, N1. rewrite N0, N1. cbn [orb].
  destruct (String.eqb_spec top "..") as [->|N2]; [ | reflexivity].
  destruct (A eq_refl) as [-> F].
  destruct below as [|b below]; [reflexivity | ].
  inversion F; subst. reflexivity.
Qed.

Lemma fold_plain allow xs res :
  Forall plainSegment xs ->
  fold_left (Path.step allow) xs res = (rev xs ++ res)%list.
Proof.
  revert res. induction xs as [|x xs IH]; intros res F; [reflexivity | ].
  inversion F as [|? ? (N0 & N1 & N2 & _) F']; subst.
  simpl. rewrite (IH _ F'), <- app_assoc. simpl. unfold Path.step.
  apply String.eqb_neq in N0, N1, N2. now rewrite N0, N1, N2.
Qed.

Lemma normalize_render p :
  p <> "" ->
  Path.normalize p
  = render (Path.isAbsolute p) (Path.trailingSeparator p)
      (rev (fold_left (Path.step (negb (Path.isAbsolute p)))
              (Path.split p) [])).
Proof.
  intros N. unfold Path.normalize, Path.normalizeString.
  destruct p as [|c p]; [congruence | ].
  set (q := String c p).
  assert (R : retained (negb (Path.isAbsolute q))
                (fold_left (Path.step (negb (Path.isAbsolute q)))
                   (Path.split q) [])).
  { apply fold_retained; [exact I | apply split_segments_noSep]. }
  apply retained_segments in R. apply Forall_rev in R.
  destruct (rev _) as [|x l]; [reflexivity | ].
  inversion R as [|? ? [Nx _] _]; subst.
  unfold render.
  destruct (String.concat "/" (x :: l)) eqn:E; [ | reflexivity].
  now elim (concat_nonempty x l Nx).
Qed.

End NormalizeFacts.

Section RenderFacts.

Implicit Types (abs trailing : bool) (segs : list string).

Lemma render_filled abs trailing segs :
  segs <> [] ->
  render abs trailing segs
  = (if abs then "/" else "") ++ String.concat "/" segs
    ++ (if trailing then "/" else "").
Proof. destruct segs; [congruence | reflexivity]. Qed.

Lemma render_nonempty abs trailing segs :
  Forall soundSegment segs -> render abs trailing segs <> "".
Proof.
  intros F. unfold render. destruct segs as [|x l].
  - destruct abs, trailing; discriminate.
  - inversion F as [|? ? [Nx _] _]; subst.
    pose proof (concat_nonempty x l Nx) as N.
    destruct (String.concat "/" (x :: l)); [congruence | ].
    destruct abs; discriminate.
Qed.

Lemma isAbsolute_render abs trailing segs :
  Forall soundSegment segs -> Path.isAbsolute (render abs trailing segs) = abs.
Proof.
  intros F. unfold render. destruct segs as [|x l].
  - destruct abs, trailing; reflexivity.
  - destruct abs; [reflexivity | ].
    inversion F as [|? ? [Nx Hx] _]; subst.
    destruct x as [|c x]; [congruence | ].
    apply hasSep_head in Hx.
    assert (E : exists r, "" ++ String.concat "/" (String c x :: l)
                          ++ (if trailing then "/" else "") = String c r).
    { destruct l; simpl; eauto. }
    destruct E as [r ->]. simpl.
    now apply Ascii.eqb_neq.
Qed.

Lemma trailing_render abs trailing segs seg :
  Forall soundSegment (segs ++ [seg])%list ->
  Path.trailingSeparator (render abs trailing (segs ++ [seg])) = trailing.
Proof.
  intros F. rewrite render_filled by now destruct segs.
  apply Forall_app in F. destruct F as [_ F].
  inversion F as [|? ? [Ns Hs] _]; subst.
  unfold Path.trailingSeparator. destruct trailing.
  - rewrite last_append;
      [ | destruct (String.concat "/" (segs ++ [seg])); discriminate].
    rewrite last_append by discriminate. reflexivity.
  - rewrite append_nil_r, last_append by now apply concat_snoc_nonempty.
    rewrite last_concat by exact Ns.
    destruct (Str.last seg) as [c|] eqn:L; [ | reflexivity].
    apply Ascii.eqb_neq. now apply (last_noSep seg).
Qed.

Lemma split_render abs trailing segs :
  segs <> [] -> Forall soundSegment segs ->
  Path.split (render abs trailing segs)
  = ((if abs then [""] else []) ++ segs
     ++ (if trailing then [""] else []))%list.
Proof.
  intros N F. unfold render. destruct segs as [|x l]; [congruence | ].
  assert (S : Path.split (String.concat "/" (x :: l)) = x :: l).
  { apply split_concat; [discriminate | ].
    eapply Forall_impl; [ | exact F]. now intros a [_ H]. }
  assert (T : Path.split (String.concat "/" (x :: l)
                          ++ (if trailing then "/" else ""))
              = ((x :: l) ++ (if trailing then [""] else []))%list).
  { destruct trailing.
    - change (String.concat "/" (x :: l) ++ "/")
        with (String.concat "/" (x :: l) ++ String Path.sep "").
      now rewrite split_append_sep, S.
    - now rewrite append_nil_r, app_nil_r. }
  destruct abs; [ | exact T].
  set (r := String.concat "/" (x :: l) ++ (if trailing then "/" else "")) in *.
  change ("/" ++ r) with ("" ++ String Path.sep r).
  now rewrite split_append_sep, T.
Qed.

(** Normalizing the text of retained segments gives that text back. *)
Lemma render_normalize abs trailing res :
  retained (negb abs) res ->
  Path.normalize (render abs trailing (rev res)) = render abs trailing (rev res).
Proof.
  intros R. destruct res as [|top below].
  - destruct abs, trailing; reflexivity.
  - assert (F : Forall soundSegment (rev (top :: below))).
    { apply Forall_rev. now apply (retained_segments (negb abs)). }
    rewrite normalize_render by now apply render_nonempty.
    rewrite isAbsolute_render by exact F.
    simpl rev in *. rewrite trailing_render by exact F.
    rewrite split_render by (exact F || now destruct (rev below)).
    f_equal. f_equal.
    assert (E : forall l1 l2,
               fold_left (Path.step (negb abs))
                 ((if abs then [""] else []) ++ l1
                  ++ (if trailing then [""] else []))%list l2
               = fold_left (Path.step (negb abs)) l1 l2).
    { intros l1 l2. rewrite !fold_left_app.
      destruct abs, trailing; reflexivity. }
    rewrite E. change (rev below ++ [top])%list with (rev (top :: below)).
    now rewrite (fold_again _ _ R).
Qed.

End RenderFacts.

Section JoinFacts.

Implicit Types (p t : string) (xs : list string).

(** [Path.normalize] is idempotent. *)
Lemma normalize_idempotent p :
  Path.normalize (Path.normalize p) = Path.normalize p.
Proof.
  destruct (String.eqb_spec p "") as [->|N]; [reflexivity | ].
  rewrite (normalize_render p N). apply render_normalize.
  apply fold_retained; [exact I | apply split_segments_noSep].
Qed.

Lemma normalize_normalized p : normalized (Path.normalize p).
Proof. apply normalize_idempotent. Qed.

(** What [Path.join] returns is normalized. *)
Lemma join_normalized a b : normalized (Path.join a b).
Proof.
  unfold Path.join. destruct a, b; try apply normalize_normalized.
  reflexivity.
Qed.

Lemma join_empty t : normalized t -> Path.join t "" = t.
Proof.
  unfold normalized, Path.join. destruct t; [discriminate | auto].
Qed.

Lemma isAbsolute_append t r : t <> "" -> Path.isAbsolute (t ++ r) = Path.isAbsolute t.
Proof. destruct t; [congruence | reflexivity]. Qed.

(** Joining plain segments to a normalized directory appends them. *)
Lemma join_plain t xs :
  normalized t -> Path.trailingSeparator t = false -> t <> "." ->
  xs <> [] -> Forall plainSegment xs ->
  Path.join t ("/" ++ String.concat "/" xs) = t ++ "/" ++ String.concat "/" xs.
Proof.
  intros Nt Tt Dt Nx Fx.
  assert (N0 : t <> "") by (intros ->; discriminate).
  set (abs := Path.isAbsolute t).
  set (st := fold_left (Path.step (negb abs)) (Path.split t) []).
  assert (Et : t = render abs false (rev st)).
  { unfold normalized in Nt. rewrite (normalize_render t N0), Tt in Nt.
    now symmetry. }
  assert (Ns : rev st <> []).
  { intros E. rewrite E in Et. unfold render in Et.
    destruct abs; subst t; [discriminate | congruence]. }
  rewrite render_filled, append_nil_r in Et by exact Ns.
  set (R := String.concat "/" xs).
  assert (Ej : Path.join t ("/" ++ R) = Path.normalize (t ++ "/" ++ "/" ++ R)).
  { destruct t; [congruence | reflexivity]. }
  rewrite Ej. set (q := t ++ "/" ++ "/" ++ R).
  assert (Nq : q <> "") by (unfold q; destruct t; [congruence | discriminate]).
  assert (Aq : Path.isAbsolute q = abs) by now apply isAbsolute_append.
  assert (Sx : Forall (fun seg => Path.hasSep seg = false) xs).
  { eapply Forall_impl; [ | exact Fx]. now intros a (_ & _ & _ & H). }
  assert (Tq : Path.trailingSeparator q = false).
  { unfold Path.trailingSeparator, q.
    destruct (exists_last Nx) as (xs' & z & E).
    assert (Pz : plainSegment z).
    { rewrite Forall_forall in Fx. apply Fx. rewrite E.
      apply in_or_app. right. now left. }
    destruct Pz as (Nz & _ & _ & Hz).
    assert (NR : R <> "") by (unfold R; rewrite E; now apply concat_snoc_nonempty).
    rewrite last_append by (destruct R; discriminate).
    rewrite last_append by (destruct R; discriminate).
    rewrite last_append by exact NR.
    unfold R. rewrite E, last_concat by exact Nz.
    destruct (Str.last z) as [c|] eqn:L; [ | reflexivity].
    apply Ascii.eqb_neq. now apply (last_noSep z). }
  assert (Sq : Path.split q = (Path.split t ++ "" :: xs)%list).
  { unfold q. change ("/" ++ "/" ++ R) with (String Path.sep ("/" ++ R)).
    rewrite split_append_sep. f_equal.
    change ("/" ++ R) with ("" ++ String Path.sep R).
    rewrite split_append_sep. unfold R. now rewrite split_concat. }
  rewrite (normalize_render q Nq), Aq, Tq, Sq.
  rewrite fold_left_app. fold st. cbn [fold_left].
  replace (Path.step (negb abs) st "") with st by reflexivity.
  rewrite fold_plain by exact Fx.
  rewrite rev_app_distr, rev_involutive.
  rewrite render_filled by (destruct (rev st); [congruence | discriminate]).
  rewrite append_nil_r, concat_app by assumption.
  fold R.
  replace (t ++ "/" ++ R)
    with (((if abs then "/" else "") ++ String.concat "/" (rev st)) ++ "/" ++ R)
    by now rewrite <- Et.
  now rewrite !append_assoc.
Qed.

End JoinFacts.

(** ** Occurrences of a text *)

Section OccurrenceFacts.

Lemma split_head s seg rest :
  Path.split s = seg :: rest -> exists post, s = seg ++ post.
Proof.
  revert seg rest. induction s as [|c s IH]; simpl; intros seg rest E.
  - injection E as <- _. now exists "".
  - destruct (Ascii.eqb c Path.sep).
    + injection E as <- _. now exists (String c s).
    + destruct (Path.split s) as [|seg0 rest0] eqn:S.
      * injection E as <- _. exists s. reflexivity.
      * injection E as <- _. destruct (IH _ _ eq_refl) as [post ->].
        now exists post.
Qed.

Lemma split_In_occurs s seg : In seg (Path.split s) -> occursIn seg s.
Proof.
  revert seg. induction s as [|c s IH]; simpl; intros seg H.
  - destruct H as [<-|[]]. now exists "", "".
  - destruct (Ascii.eqb c Path.sep).
    + destruct H as [<-|H]; [now exists "", (String c s) | ].
      destruct (IH _ H) as (pre & post & ->). now exists (String c pre), post.
    + destruct (Path.split s) as [|seg0 rest0] eqn:S.
      * now elim (split_nonempty s).
      * destruct H as [<-|H].
        -- destruct (split_head _ _ _ S) as [post ->]. now exists "", post.
        -- destruct (IH seg (or_intror H)) as (pre & post & ->).
           now exists (String c pre), post.
Qed.

Lemma substring_occurs s m n : occursIn (String.substring m n s) s.
Proof.
  revert m n. induction s as [|c s IH]; intros m n.
  - destruct m, n; now exists "", "".
  - destruct m as [|m].
    + destruct n as [|n]; [now exists "", (String c s) | ].
      simpl. destruct (IH 0 n) as (pre & post & E).
      destruct pre as [|x pre].
      * exists "", post. simpl in *. now rewrite <- E.
      * clear E. revert n. clear IH.
        assert (G : forall n, exists post,
                   s = String.substring 0 n s ++ post).
        { induction s as [|y s IHs]; intros n.
          - destruct n; now exists "".
          - destruct n as [|n]; [now exists (String y s) | ].
            simpl. destruct (IHs n) as [p Ep]. exists p. now rewrite <- Ep. }
        intros n. destruct (G n) as [p Ep]. exists "", p. simpl.
        now rewrite <- Ep.
    + simpl. destruct (IH m n) as (pre & post & E).
      exists (String c pre), post. simpl. now rewrite <- E.
Qed.

Lemma substring_at pre x post :
  String.substring (String.length pre) (String.length x) (pre ++ x ++ post) = x.
Proof.
  induction pre as [|c pre IH]; [ | exact IH].
  simpl. induction x as [|c x IHx]; simpl; [now destruct post | ].
  now rewrite IHx.
Qed.

(** [s.indexOf(needle) === -1] says that [needle] does not occur. *)
Lemma indexOf_None_iff needle s :
  needle <> "" -> (Str.indexOf needle s = None <-> ~ occursIn needle s).
Proof.
  intros N. unfold Str.indexOf. split.
  - intros E (pre & post & ->).
    apply (String.index_correct3 0 (String.length pre)) in E; [ | exact N | lia].
    apply E, substring_at.
  - intros H. destruct (String.index 0 needle s) as [m|] eqn:E; [ | reflexivity].
    elim H. apply String.index_correct1 in E. rewrite <- E.
    apply substring_occurs.
Qed.

Lemma inside_occurs from :
  insideDependencyDirectory from = true -> occursIn "node_modules" from.
Proof.
  unfold insideDependencyDirectory. intros H.
  apply existsb_exists in H. destruct H as (seg & Hin & E).
  apply String.eqb_eq in E. subst seg. now apply split_In_occurs.
Qed.

End OccurrenceFacts.

(** ** Lists of directories *)

Section DirectoryListFacts.

Implicit Types (x : string) (l seen : list string).

Lemma existsb_eqb_In x l : existsb (String.eqb x) l = true <-> In x l.
Proof.
  rewrite existsb_exists. split.
  - intros (y & Hy & E). apply String.eqb_eq in E. now subst.
  - intros H. exists x. split; [exact H | apply String.eqb_refl].
Qed.

Lemma indexOf_None_In x l : Arr.indexOf x l = None <-> ~ In x l.
Proof.
  induction l as [|y l IH]; simpl; [tauto | ].
  destruct (String.eqb_spec y x) as [->|N].
  - split; [discriminate | intros H; elim H; now left].
  - destruct (Arr.indexOf x l).
    + split; [discriminate | ]. intros H. exfalso. apply H. right.
      destruct (in_dec string_dec x l) as [I|I]; [exact I | ].
      apply IH in I. discriminate.
    + split; [ | reflexivity]. intros _ [E|I]; [now elim N | ].
      now apply IH in I.
Qed.

Lemma dedup_In x seen l : In x (dedup seen l) <-> In x l /\ ~ In x seen.
Proof.
  revert seen. induction l as [|y l IH]; intros seen; simpl; [tauto | ].
  destruct (existsb (String.eqb y) seen) eqn:E.
  - apply existsb_eqb_In in E. rewrite IH. split.
    + intros [H1 H2]. tauto.
    + intros [[<-|H1] H2]; tauto.
  - assert (NI : ~ In y seen).
    { intros H. apply existsb_eqb_In in H. congruence. }
    simpl. rewrite IH, in_app_iff. simpl. split.
    + intros [<-|[H1 H2]]; tauto.
    + intros [[<-|H1] H2]; [now left | ].
      destruct (string_dec y x) as [->|N]; [now left | right; tauto].
Qed.

Lemma dedup_NoDup seen l : NoDup (dedup seen l).
Proof.
  revert seen. induction l as [|y l IH]; intros seen; simpl; [constructor | ].
  destruct (existsb (String.eqb y) seen); [apply IH | ].
  constructor; [ | apply IH].
  rewrite dedup_In, in_app_iff. simpl. tauto.
Qed.

(** The keys of the object the wrapper fills, for names that are created
    as own properties. *)
Lemma fold_set_names l (o : JsObject.t bool) :
  Forall (fun k => k <> "__proto__") l ->
  map fst (fold_left (fun o path => JsObject.set path true o) l o)
  = (map fst o ++ dedup (map fst o) l)%list.
Proof.
  revert o. induction l as [|x l IH]; intros o F; simpl;
    [now rewrite app_nil_r | ].
  inversion F as [|? ? Nx F']; subst.
  rewrite (IH _ F'), map_fst_set.
  destruct (JsObject.has x o) eqn:H.
  - apply has_true_iff, existsb_eqb_In in H. now rewrite H.
  - assert (E : existsb (String.eqb x) (map fst o) = false).
    { destruct (existsb _ _) eqn:E; [ | reflexivity].
      apply existsb_eqb_In, has_true_iff in E. congruence. }
    apply String.eqb_neq in Nx. rewrite E, Nx, <- app_assoc. reflexivity.
Qed.

Lemma repairedPaths_ordinary self (pp : option (list string)) :
  Forall ordinaryName
    (modulePaths self ++ match pp with Some l => l | None => [] end)%list ->
  repairedPaths self pp
  = orderedUnion (modulePaths self) match pp with Some l => l | None => [] end.
Proof.
  intros F. unfold repairedPaths, orderedUnion.
  set (l := (modulePaths self ++ match pp with Some l => l | None => [] end)%list)
    in *.
  assert (E : match pp with
              | Some l0 => (modulePaths self ++ l0)%list
              | None => modulePaths self
              end = l).
  { unfold l. destruct pp; [reflexivity | now rewrite app_nil_r]. }
  rewrite E.
  assert (Fp : Forall (fun k => k <> "__proto__") l).
  { eapply Forall_impl; [ | exact F]. now intros k [_ H]. }
  pose proof (fold_set_names l JsObject.empty Fp) as Hn. simpl in Hn.
  rewrite keys_ordinary; [exact Hn | ]. rewrite Hn.
  apply Forall_forall. intros k Hk. apply dedup_In in Hk.
  rewrite Forall_forall in F. now apply F.
Qed.

End DirectoryListFacts.

(** * The claims *)

Section Claims.

Lemma matchedAlias_greatest self request c :
  AliasTableInv self -> matchedAlias self request = Some c ->
  forall d, In d (moduleAliasNames self) ->
            isPathMatchesAlias request d = true -> sle d c.
Proof.
  intros I E. destruct (inv_names self I) as (S & _).
  now destruct (find_rev_sorted _ _ _ S E) as (_ & _ & Hmax).
Qed.

Lemma properPrefix_length a b :
  properPrefix a b -> String.length a < String.length b.
Proof.
  intros (r & N & ->). rewrite length_append.
  destruct r; [congruence | simpl; lia].
Qed.

(** C1, as amended: when the table holds an alias [a] and a longer alias
    [b] that extends it, a request that matches [b] is rewritten with the
    target of the longest registered alias matching the request.  That
    alias [c] is the first match of the walk over the sorted names from
    the greatest down, it is never the shorter alias [a], it is [b] itself
    unless a registered alias longer than [b] matches too, and the request
    rewritten with its target goes to the delegate as it is: one alias is
    applied, once. *)
Theorem C1_longest_alias_wins
  (self : ModuleAlias) (a b request : string)
  (parent : option ModRef) (args : list JsValue) (heap : ModHeap) :
  AliasTableInv self ->
  In a (moduleAliasNames self) -> In b (moduleAliasNames self) ->
  properPrefix a b ->
  isPathMatchesAlias request b = true ->
  exists c,
    find (isPathMatchesAlias request) (rev (moduleAliasNames self)) = Some c /\
    c <> a /\
    String.length b <= String.length c /\
    (forall d, In d (moduleAliasNames self) ->
               isPathMatchesAlias request d = true ->
               sle d c /\ String.length d <= String.length c) /\
    ((forall d, In d (moduleAliasNames self) ->
                isPathMatchesAlias request d = true ->
                String.length d <= String.length b) -> c = b) /\
    (forall target,
        JsObject.get c (moduleAliases self) = Some (Static target) ->
        resolveFilename self request parent args heap
        = oldResolveFilename self
            (Path.join target (Str.substr (String.length c) request))
            parent args
            match parent with
            | Some p =>
                setPaths p (Some (repairedPaths self (paths (heap p)))) heap
            | None => heap
            end).
Proof.
  intros I Ha Hb PP Mb.
  destruct (matchedAlias_some self request b Hb Mb) as [c E].
  destruct (matchedAlias_longest self request c I E) as (Hc & Mc & Hmax).
  pose proof (properPrefix_length a b PP) as L.
  pose proof (Hmax b Hb Mb) as Lb.
  exists c. split; [exact E | ]. split; [intros ->; lia | ].
  split; [exact Lb | ]. split.
  { intros d Hd Md. split; [ | now apply Hmax].
    now apply (matchedAlias_greatest self request c I E). }
  split.
  { intros Hb'. apply (match_same_length request); auto.
    apply Nat.le_antisymm; auto. }
  intros target G. apply resolveFilename_after_rewrite.
  now apply rewriteRequest_static.
Qed.

Lemma Sample_nested_inv : AliasTableInv Sample.nested.
Proof.
  unfold Sample.nested.
  now apply registerAll_facts, freshInstance_inv.
Defined.

Lemma C1_longest_alias_wins_witness :
  exists c,
    find (isPathMatchesAlias "@a/sub/file") (rev (moduleAliasNames Sample.nested))
    = Some c /\ c <> "@a".
Proof.
  destruct (C1_longest_alias_wins Sample.nested "@a" "@a/sub" "@a/sub/file"
              None [] Sample.heap) as (c & E & N & _).
  - exact Sample_nested_inv.
  - vm_compute. tauto.
  - vm_compute. tauto.
  - exists "/sub". split; [discriminate | reflexivity].
  - reflexivity.
  - exists c. now split.
Defined.

(** C1 as stated fails once a third alias extends the longer one: with
    [@a], [@a/sub] and [@a/sub/file] registered, the request
    [@a/sub/file] matches the longer alias [@a/sub] of the pair
    ([@a], [@a/sub]), yet it is rewritten with the target of
    [@a/sub/file], not with the one of [@a/sub]. *)
Lemma C1_counterexample :
  In "@a" (moduleAliasNames Sample.nested3) /\
  In "@a/sub" (moduleAliasNames Sample.nested3) /\
  properPrefix "@a" "@a/sub" /\
  isPathMatchesAlias "@a/sub/file" "@a/sub" = true /\
  JsObject.get "@a/sub" (moduleAliases Sample.nested3) = Some (Static "/y") /\
  fst (resolveFilename Sample.nested3 "@a/sub/file" None [] Sample.heap)
  = Return "/z" /\
  Path.join "/y" (Str.substr (String.length "@a/sub") "@a/sub/file") = "/y/file".
Proof.
  split; [vm_compute; tauto | ]. split; [vm_compute; tauto | ].
  split; [exists "/sub"; split; [discriminate | reflexivity] | ].
  repeat split; reflexivity.
Qed.

Lemma match_not_boundary a c r :
  c <> "/"%char -> isPathMatchesAlias (a ++ String c r) a = false.
Proof.
  intros N. destruct (isPathMatchesAlias (a ++ String c r) a) eqn:E;
    [ | reflexivity].
  apply isPathMatchesAlias_iff in E. destruct E as [E|[rest E]].
  - rewrite <- (append_nil_r a) in E at 2. apply append_inv_head in E.
    discriminate.
  - apply append_inv_head in E. injection E as -> _. now elim N.
Qed.

(** C2, as amended.  The boundary test holds iff the request starts
    with the alias and either has the alias's length or continues with
    [/].  For a registered static alias [a -> t] that no longer
    registered alias outranks on the request, the requests [a] and
    [a/...] go to the delegate as [Path.join(t, rest)], [rest] being the
    request after the alias; that is [t], [t/x], [t/x/y] when [t] is a
    normalized path other than [.] without trailing separator and [x],
    [y] are plain segments.  The alias does not match [ab], and a
    request that no registered alias matches is delegated unchanged. *)
Theorem C2_boundary_match_and_rewrite :
  (forall path alias,
      isPathMatchesAlias path alias = true <->
      startsWith alias path /\
      (String.length path = String.length alias \/
       String.get (String.length alias) path = Some "/"%char)) /\
  (forall self a t rest parent args heap,
      AliasTableInv self ->
      JsObject.get a (moduleAliases self) = Some (Static t) ->
      rest = "" \/ (exists r, rest = "/" ++ r) ->
      (forall d, In d (moduleAliasNames self) ->
                 isPathMatchesAlias (a ++ rest) d = true ->
                 String.length d <= String.length a) ->
      resolveFilename self (a ++ rest) parent args heap
      = oldResolveFilename self (Path.join t rest) parent args
          match parent with
          | Some p =>
              setPaths p (Some (repairedPaths self (paths (heap p)))) heap
          | None => heap
          end) /\
  (forall t x y,
      normalized t -> Path.trailingSeparator t = false -> t <> "." ->
      plainSegment x -> plainSegment y ->
      Path.join t "" = t /\
      Path.join t ("/" ++ x) = t ++ "/" ++ x /\
      Path.join t ("/" ++ x ++ "/" ++ y) = t ++ "/" ++ x ++ "/" ++ y) /\
  (forall a c r, c <> "/"%char -> isPathMatchesAlias (a ++ String c r) a = false) /\
  (forall self request parent args heap,
      (forall d, In d (moduleAliasNames self) ->
                 isPathMatchesAlias request d = false) ->
      resolveFilename self request parent args heap
      = oldResolveFilename self request parent args
          match parent with
          | Some p =>
              setPaths p (Some (repairedPaths self (paths (heap p)))) heap
          | None => heap
          end).
Proof.
  split; [ | split; [ | split; [ | split]]].
  - intros path alias. rewrite isPathMatchesAlias_iff. split.
    + intros [->|[rest ->]].
      * split; [exists ""; now rewrite append_nil_r | now left].
      * split; [now exists ("/" ++ rest) | right].
        now rewrite get_append.
    + intros [[rest ->] [L|G]].
      * rewrite length_append in L. left.
        assert (String.length rest = 0) by lia.
        rewrite (length_zero rest) by assumption. apply append_nil_r.
      * rewrite get_append in G. right.
        destruct rest as [|c rest]; simpl in G; [discriminate | ].
        injection G as ->. now exists rest.
  - intros self a t rest parent args heap I G B Hmax.
    assert (Ma : isPathMatchesAlias (a ++ rest) a = true).
    { apply isPathMatchesAlias_iff. destruct B as [->|[r ->]].
      - left. apply append_nil_r.
      - right. now exists r. }
    assert (Ha : In a (moduleAliasNames self)).
    { apply (inv_names self I). congruence. }
    apply resolveFilename_after_rewrite.
    rewrite (rewriteRequest_static self (a ++ rest) a t).
    + now rewrite substr_append.
    + now apply matchedAlias_intro.
    + exact G.
  - intros t x y Nt Tt Dt Px Py. split; [now apply join_empty | ]. split.
    + apply (join_plain t [x]); auto. discriminate.
    + apply (join_plain t [x; y]); auto. discriminate.
  - apply match_not_boundary.
  - intros self request parent args heap H.
    apply resolveFilename_after_rewrite, rewriteRequest_nomatch.
    now apply matchedAlias_none.
Qed.

Lemma Sample_client_inv : AliasTableInv Sample.client.
Proof. apply addAlias_inv, freshInstance_inv. Defined.

Lemma C2_boundary_match_and_rewrite_witness :
  fst (resolveFilename Sample.client "@client/x/y" None [] Sample.heap)
  = Return "/src/client/x/y" /\
  Path.join "/src/client" "/x/y" = "/src/client/x/y" /\
  fst (resolveFilename Sample.client "@clientb" None [] Sample.heap)
  = Return "@clientb".
Proof.
  destruct C2_boundary_match_and_rewrite as (_ & H2 & H3 & H4 & H5).
  split; [ | split].
  - change "@client/x/y" with ("@client" ++ "/x/y").
    rewrite (H2 Sample.client "@client" "/src/client" "/x/y" None []
               Sample.heap Sample_client_inv); try reflexivity.
    + right. now exists "x/y".
    + intros d [<-|[]] _. apply le_n.
  - apply (H3 "/src/client" "x" "y"); try reflexivity; try discriminate;
      repeat split; discriminate.
  - rewrite (H5 Sample.client "@clientb" None [] Sample.heap);
      [reflexivity | ].
    intros d [<-|[]]. apply (H4 "@client" "b"%char ""). discriminate.
Defined.

(** C2 as stated fails for the alias of the package documentation,
    [@root -> .]: the request [@root/lib/x] reaches the delegate as
    [lib/x], not as [./lib/x]. *)
Lemma C2_counterexample :
  moduleAliasNames Sample.rooted = ["@root"] /\
  JsObject.get "@root" (moduleAliases Sample.rooted) = Some (Static ".") /\
  fst (resolveFilename Sample.rooted "@root/lib/x" None [] Sample.heap)
  = Return "lib/x" /\
  "lib/x" <> "." ++ "/lib/x".
Proof. repeat split; (reflexivity || discriminate). Qed.

(** C3, as amended: the wrapped directory-list builder returns the
    delegate's list unchanged when the text [node_modules] occurs anywhere
    in [from], which covers every [from] inside a dependency directory,
    and otherwise the Path Set's entries, in Path Set order, followed by
    the delegate's list.  The builder only computes a list from the
    instance and [from]: it writes to nothing, the captured delegate
    included. *)
Theorem C3_directory_list (self : ModuleAlias) (from : string) :
  (occursIn "node_modules" from ->
   nodeModulePaths self from = oldNodeModulePaths self from) /\
  (insideDependencyDirectory from = true ->
   nodeModulePaths self from = oldNodeModulePaths self from) /\
  (~ occursIn "node_modules" from ->
   nodeModulePaths self from
   = (modulePaths self ++ oldNodeModulePaths self from)%list).
Proof.
  assert (N : "node_modules" <> "") by discriminate.
  unfold nodeModulePaths.
  destruct (Str.indexOf "node_modules" from) as [m|] eqn:E.
  - split; [reflexivity | ]. split; [reflexivity | ].
    intros H. apply (indexOf_None_iff _ _ N) in H. congruence.
  - apply (indexOf_None_iff _ _ N) in E. split; [tauto | ].
    split; [ | reflexivity]. intros H. now apply inside_occurs in H.
Qed.

Lemma C3_directory_list_witness :
  nodeModulePaths Sample.withLib "/app/node_modules/pkg"
  = oldNodeModulePaths Sample.withLib "/app/node_modules/pkg".
Proof.
  apply (C3_directory_list Sample.withLib "/app/node_modules/pkg").
  reflexivity.
Defined.

(** C3 as stated fails for a directory whose name merely contains
    [node_modules]: [/app/node_modules_custom/lib] is not inside a
    dependency directory, the Path Set is not empty, and the delegate's
    list comes back without the Path Set's entries. *)
Lemma C3_counterexample :
  insideDependencyDirectory "/app/node_modules_custom/lib" = false /\
  modulePaths Sample.withLib = ["/app/lib"] /\
  nodeModulePaths Sample.withLib "/app/node_modules_custom/lib"
  = oldNodeModulePaths Sample.withLib "/app/node_modules_custom/lib" /\
  nodeModulePaths Sample.withLib "/app/node_modules_custom/lib"
  <> (modulePaths Sample.withLib
      ++ oldNodeModulePaths Sample.withLib "/app/node_modules_custom/lib")%list.
Proof. repeat split; (reflexivity || discriminate). Qed.

Lemma world_eta (w : World) :
  mkWorld (modules w) (ctors w) (instances w) (nextInstance w) = w.
Proof. now destruct w. Qed.

(** C5, as amended: when the alias the loop stops at has a handler for
    target and the call names a requesting module, the outcome is decided
    by the handler applied to that module's file name, the request as
    received and the alias name.  A return value that is falsy or not a
    string makes the call throw the handler error and leaves every
    object of the runtime, the alias dictionary and its name index among
    them, as it was; a non-empty string is joined with the rest of the
    request and delegated.  A call that names no requesting module throws
    a type error before the handler is consulted, and leaves every object
    as it was too. *)
Theorem C5_handler_dispatch
  (w : World) (c : CtorRef) (h : InstRef) (request alias : string)
  (f : string -> string -> string -> JsValue)
  (p : ModRef) (args : list JsValue) :
  _resolveFilename (ctors w c) = Wrapper h ->
  matchedAlias (instances w h) request = Some alias ->
  JsObject.get alias (moduleAliases (instances w h)) = Some (Handler f) ->
  (truthy (f (filename (modules w p)) request alias) = false \/
   typeofString (f (filename (modules w p)) request alias) = false ->
   callResolveFilename c request (Some p) args w = (Throw handlerError, w)) /\
  (forall s,
      f (filename (modules w p)) request alias = VString s -> s <> "" ->
      resolveFilename (instances w h) request (Some p) args (modules w)
      = oldResolveFilename (instances w h)
          (Path.join s (Str.substr (String.length alias) request))
          (Some p) args
          (setPaths p
             (Some (repairedPaths (instances w h) (paths (modules w p))))
             (modules w))) /\
  callResolveFilename c request None args w = (Throw TypeError, w).
Proof.
  intros Hc Hm Hg. split; [ | split].
  - intros Hv. unfold callResolveFilename. rewrite Hc. simpl.
    rewrite (resolveFilename_throw _ _ handlerError).
    + now rewrite world_eta.
    + unfold rewriteRequest. rewrite Hm, Hg. simpl.
      destruct Hv as [-> | ->]; [reflexivity | ].
      simpl. now rewrite orb_true_r.
  - intros s Hs Ns. apply resolveFilename_after_rewrite.
    unfold rewriteRequest. rewrite Hm, Hg. simpl. rewrite Hs. simpl.
    apply String.eqb_neq in Ns. now rewrite Ns.
  - unfold callResolveFilename. rewrite Hc. simpl.
    rewrite (resolveFilename_throw _ _ TypeError).
    + now rewrite world_eta.
    + unfold rewriteRequest. now rewrite Hm, Hg.
Qed.

Lemma C5_handler_dispatch_witness :
  callResolveFilename 0 "@src/lib" (Some 0) [] Sample.installedSilent
  = (Throw handlerError, Sample.installedSilent).
Proof.
  apply (C5_handler_dispatch Sample.installedSilent 0 0 "@src/lib" "@src"
           (fun _ _ _ => VUndefined) 0 []); try reflexivity.
  now left.
Defined.

(** C5 as stated fails for a call that names no requesting module.  The
    first matching alias has a handler that returns a path for every
    requesting module, yet the handler is not invoked: reading the file
    name of the missing module throws a type error, which is not the
    handler error, and nothing is delegated. *)
Lemma C5_counterexample :
  matchedAlias Sample.dynamic "@src/lib" = Some "@src" /\
  (exists f,
      JsObject.get "@src" (moduleAliases Sample.dynamic) = Some (Handler f) /\
      forall from, truthy (f from "@src/lib" "@src") = true /\
                   typeofString (f from "@src/lib" "@src") = true) /\
  resolveFilename Sample.dynamic "@src/lib" None [] Sample.heap
  = (Throw TypeError, Sample.heap) /\
  TypeError <> handlerError.
Proof.
  split; [reflexivity | ]. split; [ | split; [reflexivity | discriminate]].
  eexists. split; [reflexivity | ].
  intros from. cbv beta. now destruct (String.prefix "/others" from).
Qed.

(** C10: without a requesting module, and with no handler behind the
    alias the loop stops at, the wrapper throws nothing of its own and
    touches no search-path list: it hands the request, rewritten when a
    static alias matched, the missing module and the arguments to the
    captured resolver, with the module objects as they were. *)
Theorem C10_missing_parent
  (self : ModuleAlias) (request : string) (args : list JsValue)
  (heap : ModHeap) :
  (forall alias, matchedAlias self request = Some alias ->
                 exists target,
                   JsObject.get alias (moduleAliases self) = Some (Static target)) ->
  exists request',
    resolveFilename self request None args heap
    = oldResolveFilename self request' None args heap /\
    ((matchedAlias self request = None /\ request' = request) \/
     (exists alias target,
         matchedAlias self request = Some alias /\
         JsObject.get alias (moduleAliases self) = Some (Static target) /\
         request' = Path.join target
                      (Str.substr (String.length alias) request))).
Proof.
  intros H. destruct (matchedAlias self request) as [alias|] eqn:E.
  - destruct (H alias eq_refl) as [target G].
    exists (Path.join target (Str.substr (String.length alias) request)).
    split.
    + apply (resolveFilename_after_rewrite self request _ None).
      now apply rewriteRequest_static.
    + right. now exists alias, target.
  - exists request. split; [ | now left].
    apply (resolveFilename_after_rewrite self request _ None).
    now apply rewriteRequest_nomatch.
Qed.

Lemma C10_missing_parent_witness :
  exists request',
    resolveFilename Sample.client "@client/x" None [] Sample.heap
    = oldResolveFilename Sample.client request' None [] Sample.heap.
Proof.
  destruct (C10_missing_parent Sample.client "@client/x" [] Sample.heap)
    as (request' & E & _).
  - intros alias [= <-]. now exists "/src/client".
  - now exists request'.
Defined.

(** C8, as amended: on every call with a requesting module in which the
    alias step does not throw, whether it rewrote the request or found
    no alias, and for directories with ordinary names, the module's
    search-path list is replaced by the de-duplicated, order-preserving
    union of the Path Set entries, first, and the module's earlier
    entries, after; the delegate is then called with the request as the
    alias step left it, this module and the arguments as received. *)
Theorem C8_search_path_repair
  (self : ModuleAlias) (request request' : string) (p : ModRef)
  (args : list JsValue) (heap : ModHeap) :
  rewriteRequest self request (Some (heap p)) = Return request' ->
  Forall ordinaryName
    (modulePaths self
     ++ match paths (heap p) with Some own => own | None => [] end)%list ->
  resolveFilename self request (Some p) args heap
  = oldResolveFilename self request' (Some p) args
      (setPaths p
         (Some (orderedUnion (modulePaths self)
                  match paths (heap p) with Some own => own | None => [] end))
         heap) /\
  (matchedAlias self request = None -> request' = request).
Proof.
  intros E F. split.
  - rewrite (resolveFilename_after_rewrite self request request' (Some p))
      by exact E.
    now rewrite repairedPaths_ordinary.
  - intros N. rewrite (rewriteRequest_nomatch _ _ _ N) in E. congruence.
Qed.

Lemma C8_search_path_repair_witness :
  resolveFilename Sample.withLib "fs" (Some 0) [VBoolean false] Sample.heapWithLib
  = oldResolveFilename Sample.withLib "fs" (Some 0) [VBoolean false]
      (setPaths 0 (Some ["/app/lib"; "/app/node_modules"; "lib"])
         Sample.heapWithLib).
Proof.
  apply (C8_search_path_repair Sample.withLib "fs" "fs" 0 [VBoolean false]
           Sample.heapWithLib); [reflexivity | ].
  repeat constructor; discriminate.
Defined.

(** C8 as stated fails in two ways.  A call whose handler returns no path
    throws before the search-path list is rebuilt and before any
    delegation; and a directory whose name is an array index is moved to
    the front of the rebuilt list, whatever its place in the Path Set. *)
Lemma C8_counterexample :
  resolveFilename Sample.silent "@src/lib" (Some 0) [] Sample.heap
  = (Throw handlerError, Sample.heap) /\
  modulePaths Sample.numbered = ["lib"; "0"] /\
  repairedPaths Sample.numbered (Some ["/app/node_modules"])
  = ["0"; "lib"; "/app/node_modules"] /\
  orderedUnion (modulePaths Sample.numbered) ["/app/node_modules"]
  = ["lib"; "0"; "/app/node_modules"].
Proof. repeat split; reflexivity. Qed.

(** C7: after any sequence of [addAlias] and [addAliases] calls the name
    index is the sorted list of the dictionary's keys: ascending, without
    repetition, a permutation of the names the dictionary owns, and no
    name it held is lost.  Adding a name the index holds again completes,
    leaves the index as it was, puts the new target in the place of the
    old one and touches no other name.  In a sequence of calls, the
    target a name carries afterwards is the one of the last call that
    named it, once that call completed, and a later resolution that stops
    at that name uses this target. *)
Theorem C7_alias_table_invariant
  (rs : list Registration) (self : ModuleAlias) :
  AliasTableInv self ->
  moduleAliasNames (registerAll rs self)
  = Str.sort (JsObject.keys (moduleAliases (registerAll rs self))) /\
  StronglySorted sle (moduleAliasNames (registerAll rs self)) /\
  NoDup (moduleAliasNames (registerAll rs self)) /\
  Permutation (moduleAliasNames (registerAll rs self))
    (map fst (moduleAliases (registerAll rs self))) /\
  (forall n, In n (moduleAliasNames self) ->
             In n (moduleAliasNames (registerAll rs self))) /\
  (forall alias target,
      In alias (moduleAliasNames self) ->
      addAliasThrows alias target self = None /\
      moduleAliasNames (addAlias alias target self) = moduleAliasNames self /\
      JsObject.get alias (moduleAliases (addAlias alias target self))
      = Some target /\
      (forall n, n <> alias ->
                 JsObject.get n (moduleAliases (addAlias alias target self))
                 = JsObject.get n (moduleAliases self))) /\
  (forall before r after n t,
      rs = (before ++ r :: after)%list ->
      registered r n = Some t ->
      registerThrows (registerAll before self) r = None ->
      assignable n (registerAll before self) ->
      (forall r', In r' after -> registered r' n = None) ->
      In n (moduleAliasNames (registerAll rs self)) /\
      JsObject.get n (moduleAliases (registerAll rs self)) = Some t /\
      (forall request parent target,
          t = Static target ->
          matchedAlias (registerAll rs self) request = Some n ->
          rewriteRequest (registerAll rs self) request parent
          = Return (Path.join target (Str.substr (String.length n) request)))).
Proof.
  intros I. destruct (registerAll_facts rs self I) as (I' & M & _ & _).
  destruct (inv_names _ I') as (S & ND & PM & K).
  destruct (inv_names _ I) as (_ & _ & _ & K0).
  assert (O : forall s, AliasTableInv s -> forall n,
              In n (moduleAliasNames s) <-> In n (map fst (moduleAliases s))).
  { intros s [_ ->] n. now rewrite sort_In, keys_In. }
  split; [apply I' | ]. split; [exact S | ]. split; [exact ND | ].
  split; [exact PM | ]. split; [ | split].
  - intros n Hn. apply (O _ I'), M, (O _ I), Hn.
  - intros alias target Hn. apply (O _ I) in Hn.
    split; [now apply addAlias_known | ].
    split; [ | split].
    + unfold addAlias, addAliasCall.
      rewrite (assignAlias_known alias target _ _ Hn). cbn [moduleAliasNames withAliases].
      destruct I as [_ ->]. now rewrite keys_replace.
    + apply get_addAlias_same; [now right | now apply addAlias_known].
    + intros n N. now apply get_addAlias_other.
  - intros before r after n t -> R C A U.
    unfold registerAll in *. rewrite fold_left_app in *. cbn [fold_left] in *.
    set (s1 := fold_left register before self) in *.
    assert (I1 : AliasTableInv s1) by now apply (registerAll_facts before self I).
    destruct (register_facts r s1 I1) as (I2 & _ & _ & _ & G).
    destruct (registerAll_facts after (register s1 r) I2) as (_ & _ & _ & U2).
    unfold registerAll in U2.
    assert (E : JsObject.get n
                  (moduleAliases (fold_left register after (register s1 r)))
                = Some t).
    { rewrite (U2 n U). now apply G. }
    split; [apply K; congruence | ]. split; [exact E | ].
    intros request parent target -> Hm.
    now apply rewriteRequest_static.
Qed.

Lemma C7_alias_table_invariant_witness :
  JsObject.get "@a"
    (moduleAliases
       (registerAll
          [AddAlias "@a" (Static "/first"); AddAlias "@b" (Static "/b");
           AddAlias "@a" (Static "/second"); AddAlias "@c" (Static "/c")]
          Sample.fresh))
  = Some (Static "/second").
Proof.
  destruct (C7_alias_table_invariant
              [AddAlias "@a" (Static "/first"); AddAlias "@b" (Static "/b");
               AddAlias "@a" (Static "/second"); AddAlias "@c" (Static "/c")]
              Sample.fresh (freshInstance_inv _ _ _ _))
    as (_ & _ & _ & _ & _ & _ & L).
  apply (L [AddAlias "@a" (Static "/first"); AddAlias "@b" (Static "/b")]
           (AddAlias "@a" (Static "/second")) [AddAlias "@c" (Static "/c")]
           "@a" (Static "/second") eq_refl eq_refl eq_refl).
  - left. discriminate.
  - intros r' [<-|[]]. reflexivity.
Defined.

Lemma addPath_known path self heap :
  In (Path.normalize path) (modulePaths self) ->
  addPath path self heap = (self, heap).
Proof.
  intros H. unfold addPath.
  destruct (Arr.indexOf _ (modulePaths self)) eqn:E; [reflexivity | ].
  apply indexOf_None_In in E. tauto.
Qed.

Lemma addPath_new path self heap :
  ~ In (Path.normalize path) (modulePaths self) ->
  addPath path self heap
  = (withModulePaths (Path.normalize path :: modulePaths self) self,
     setPaths (module self)
       (option_map (frontInsert (Path.normalize path))
          (paths (heap (module self)))) heap).
Proof.
  intros H. unfold addPath. apply indexOf_None_In in H. rewrite H.
  f_equal. f_equal. unfold addPathHelper. rewrite normalize_idempotent.
  destruct (paths (heap (module self))) as [arr|]; [ | reflexivity].
  simpl. unfold frontInsert.
  destruct (in_dec string_dec (Path.normalize path) arr) as [Y|Y].
  - destruct (Arr.indexOf _ arr) eqn:E; [reflexivity | ].
    apply indexOf_None_In in E. tauto.
  - apply indexOf_None_In in Y. now rewrite Y.
Qed.

Lemma setPaths_same r ps heap : paths (setPaths r ps heap r) = ps.
Proof. unfold setPaths. now rewrite Nat.eqb_refl. Qed.

Lemma setPaths_other r r' ps heap : r' <> r -> setPaths r ps heap r' = heap r'.
Proof. intros N. unfold setPaths. apply Nat.eqb_neq in N. now rewrite N. Qed.

(** C6: [addPath] works on the normalized path.  After [addPath(p1)] the
    Path Set holds that path exactly once, and a second [addPath] with
    any text that normalizes to the same path changes nothing.  A path
    that was not in the Path Set is put at its front and, unless already
    there, at the front of the owning module's own list; a path that was
    in the Path Set leaves everything as it was.  The method has no
    throwing path: it is a total function of the state. *)
Theorem C6_addPath_idempotent
  (p1 p2 : string) (self : ModuleAlias) (heap : ModHeap) :
  Path.normalize p1 = Path.normalize p2 ->
  PathSetInv self ->
  addPath p2 (fst (addPath p1 self heap)) (snd (addPath p1 self heap))
  = addPath p1 self heap /\
  count_occ string_dec (modulePaths (fst (addPath p1 self heap)))
    (Path.normalize p1) = 1 /\
  PathSetInv (fst (addPath p1 self heap)) /\
  (~ In (Path.normalize p1) (modulePaths self) ->
   modulePaths (fst (addPath p1 self heap))
   = Path.normalize p1 :: modulePaths self /\
   paths (snd (addPath p1 self heap) (module self))
   = option_map (frontInsert (Path.normalize p1)) (paths (heap (module self))) /\
   forall r, r <> module self -> snd (addPath p1 self heap) r = heap r) /\
  (In (Path.normalize p1) (modulePaths self) ->
   addPath p1 self heap = (self, heap)).
Proof.
  intros E ND. unfold PathSetInv in *.
  destruct (in_dec string_dec (Path.normalize p1) (modulePaths self)) as [Y|Y].
  - rewrite (addPath_known p1 self heap Y). simpl.
    split; [apply addPath_known; now rewrite <- E | ].
    split.
    { apply Nat.le_antisymm.
      - now apply NoDup_count_occ.
      - now apply count_occ_In. }
    split; [exact ND | ]. split; [tauto | reflexivity].
  - rewrite (addPath_new p1 self heap Y). simpl.
    split; [apply addPath_known; rewrite <- E; now left | ].
    split.
    { destruct (string_dec (Path.normalize p1) (Path.normalize p1)) as [_|N];
        [ | now elim N].
      f_equal. now apply count_occ_not_In. }
    split; [now constructor | ].
    split; [ | tauto]. intros _.
    split; [reflexivity | ]. split; [apply setPaths_same | ].
    intros r N. now apply setPaths_other.
Qed.

Lemma C6_addPath_idempotent_witness :
  addPath "/app/lib/" (fst (addPath "/app/./lib/x/../" Sample.fresh Sample.heap))
    (snd (addPath "/app/./lib/x/../" Sample.fresh Sample.heap))
  = addPath "/app/./lib/x/../" Sample.fresh Sample.heap /\
  count_occ string_dec
    (modulePaths (fst (addPath "/app/./lib/x/../" Sample.fresh Sample.heap)))
    "/app/lib/" = 1.
Proof.
  destruct (C6_addPath_idempotent "/app/./lib/x/../" "/app/lib/"
              Sample.fresh Sample.heap) as (H1 & H2 & _).
  - reflexivity.
  - constructor.
  - split; [exact H1 | exact H2].
Defined.

Lemma importedAliases_loop base (ks : list string) (aliases : JsObject.t string) :
  NoDup ks ->
  forall alias,
    JsObject.get alias
      (fold_left
         (fun aliases alias =>
            match JsObject.get alias aliases with
            | Some target =>
                if Path.isAbsolute target
                then JsObject.set alias (Path.join base target) aliases
                else aliases
            | None => aliases
            end) ks aliases)
    = if in_dec string_dec alias ks
      then option_map (rebased base) (JsObject.get alias aliases)
      else JsObject.get alias aliases.
Proof.
  revert aliases. induction ks as [|k ks IH]; intros aliases ND alias;
    [reflexivity | ].
  inversion ND as [|? ? Nk ND']; subst. cbn [fold_left].
  rewrite (IH _ ND').
  set (aliases1 := match JsObject.get k aliases with
                   | Some target =>
                       if Path.isAbsolute target
                       then JsObject.set k (Path.join base target) aliases
                       else aliases
                   | None => aliases
                   end).
  assert (G1 : JsObject.get alias aliases1
               = if String.eqb alias k
                 then option_map (rebased base) (JsObject.get alias aliases)
                 else JsObject.get alias aliases).
  { unfold aliases1. destruct (String.eqb_spec alias k) as [->|N].
    - destruct (JsObject.get k aliases) as [target|] eqn:G; [ | now rewrite G].
      unfold rebased. simpl.
      destruct (Path.isAbsolute target); [ | exact G].
      apply get_set_same. right.
      destruct (in_dec string_dec k (map fst aliases)) as [Y|Y]; [exact Y | ].
      apply get_None_iff in Y. congruence.
    - destruct (JsObject.get k aliases) as [target|]; [ | reflexivity].
      destruct (Path.isAbsolute target); [ | reflexivity].
      now apply get_set_other. }
  rewrite G1.
  destruct (in_dec string_dec alias ks) as [Y|Y];
    destruct (in_dec string_dec alias (k :: ks)) as [Z|Z];
    try (elim Z; now right).
  - destruct (String.eqb_spec alias k) as [->|N]; [tauto | reflexivity].
  - destruct Z as [<-|Z]; [ | tauto]. now rewrite String.eqb_refl.
  - destruct (String.eqb_spec alias k) as [->|N]; [ | reflexivity].
    elim Z. now left.
Qed.

Lemma importedAliases_get base declared alias target :
  NoDup (map fst declared) ->
  JsObject.get alias declared = Some target ->
  JsObject.get alias (importedAliases base declared)
  = Some (rebased base target).
Proof.
  intros ND G. unfold importedAliases.
  rewrite importedAliases_loop by now apply keys_NoDup.
  destruct (in_dec string_dec alias (JsObject.keys declared)) as [Y|Y];
    [now rewrite G | ].
  elim Y. apply keys_In.
  destruct (in_dec string_dec alias (map fst declared)) as [Z|Z]; [exact Z | ].
  apply get_None_iff in Z. congruence.
Qed.

Lemma staticAliases_get (aliases : JsObject.t string) alias :
  JsObject.get alias (staticAliases aliases)
  = option_map Static (JsObject.get alias aliases).
Proof.
  induction aliases as [|[k v] o IH]; simpl; [reflexivity | ].
  now destruct (String.eqb alias k).
Qed.

(** The manifest's aliases are registered without error on a dictionary
    with the prototype of an object literal. *)
Lemma staticAliases_complete (aliases : JsObject.t string) self :
  moduleAliasesPrototype self = ObjectPrototype ->
  addAliasesThrows (staticAliases aliases) self = None.
Proof.
  intros P. unfold addAliasesThrows.
  apply addAliasesLoop_static; [ | exact P].
  intros k t G. rewrite staticAliases_get in G.
  destruct (JsObject.get k aliases) as [s|]; [ | discriminate].
  exists s. simpl in G. congruence.
Qed.

Lemma importDirectories_filter base dirs self heap :
  importDirectories base dirs self heap
  = fold_left (fun acc dir => addPath (Path.join base dir) (fst acc) (snd acc))
      (registeredDirectories dirs) (self, heap).
Proof.
  unfold importDirectories, registeredDirectories.
  destruct dirs as [ds|]; [ | reflexivity].
  generalize (self, heap). induction ds as [|d ds IH]; intros acc;
    [reflexivity | ].
  cbn [fold_left filter]. rewrite IH. unfold importDirectory.
  now destruct (String.eqb d "node_modules").
Qed.

Lemma addPath_fields path self heap :
  moduleAliases (fst (addPath path self heap)) = moduleAliases self /\
  moduleAliasNames (fst (addPath path self heap)) = moduleAliasNames self /\
  (forall r, constructor (snd (addPath path self heap) r) = constructor (heap r)) /\
  (forall q, In q (modulePaths (fst (addPath path self heap)))
             <-> q = Path.normalize path \/ In q (modulePaths self)).
Proof.
  unfold addPath.
  destruct (Arr.indexOf _ (modulePaths self)) eqn:E; simpl.
  - split; [reflexivity | ]. split; [reflexivity | ].
    split; [reflexivity | ]. intros q. split; [tauto | ].
    intros [->|H]; [ | exact H].
    destruct (in_dec string_dec (Path.normalize path) (modulePaths self))
      as [Y|Y]; [exact Y | ].
    apply indexOf_None_In in Y. congruence.
  - split; [reflexivity | ]. split; [reflexivity | ]. split.
    + intros r. unfold setPaths.
      destruct (Nat.eqb_spec r (module self)) as [->|N]; reflexivity.
    + intros q. split; (intros [H|H]; [left | right]; auto).
Qed.

Lemma registered_fields (ps : list string) self heap :
  let r := fold_left (fun acc p => addPath p (fst acc) (snd acc)) ps (self, heap) in
  moduleAliases (fst r) = moduleAliases self /\
  moduleAliasNames (fst r) = moduleAliasNames self /\
  (forall m, constructor (snd r m) = constructor (heap m)) /\
  (forall q, In q (modulePaths (fst r))
             <-> In q (map Path.normalize ps) \/ In q (modulePaths self)).
Proof.
  revert self heap. induction ps as [|p ps IH]; intros self heap; cbn zeta.
  - simpl. repeat split; auto; tauto.
  - cbn [fold_left fst snd].
    destruct (addPath_fields p self heap) as (A1 & A2 & A3 & A4).
    destruct (addPath p self heap) as [self1 heap1] eqn:E. simpl in *.
    destruct (IH self1 heap1) as (B1 & B2 & B3 & B4). cbn zeta in *.
    split; [congruence | ]. split; [congruence | ].
    split; [intros m; now rewrite B3 | ].
    intros q. rewrite B4, A4. simpl.
    split; [intros [H|[H|H]] | intros [[H|H]|H]]; auto.
Qed.

Lemma addAliases_modulePaths (aliases : ModuleAliasDict) self :
  modulePaths (addAliases aliases self) = modulePaths self.
Proof.
  unfold addAliases. apply addAliasesLoop_frame.
Qed.

Lemma fold_addPath_map base (ds : list string) (acc : ModuleAlias * ModHeap) :
  fold_left (fun acc p => addPath p (fst acc) (snd acc))
    (map (Path.join base) ds) acc
  = fold_left (fun acc dir => addPath (Path.join base dir) (fst acc) (snd acc))
      ds acc.
Proof.
  revert acc. induction ds as [|d ds IH]; intros acc; [reflexivity | ].
  cbn [map fold_left]. apply IH.
Qed.

Lemma new_fresh env parent opts w m base pkg :
  requestingModule env parent = Some m ->
  _moduleAlias (ctors w (constructor (modules w m))) = None ->
  findPackage env (candidatePackagePaths env opts) None
  = (Some base, Package pkg) ->
  base <> "" ->
  new_ModuleAlias env parent opts w
  = (Return (nextInstance w),
     let c := constructor (modules w m) in
     let self := nextInstance w in
     let this :=
       freshInstance m c
         (capturedNodeModulePaths w (_nodeModulePaths (ctors w c)))
         (capturedResolveFilename w (_resolveFilename (ctors w c))) in
     let r :=
       importDirectories base (_moduleDirectories pkg)
         (addAliases (staticAliases (importedAliases base (_moduleAliases pkg)))
            this)
         (modules w) in
     mkWorld (snd r)
       (setCtor c (mkCtor (Wrapper self) (Wrapper self) (Some self)) (ctors w))
       (setInstance self (fst r) (instances w)) (S self)).
Proof.
  intros Hm Hn Hf Nb. unfold new_ModuleAlias. rewrite Hm, Hn, Hf.
  apply String.eqb_neq in Nb. rewrite Nb. unfold freshInstance. cbn zeta.
  rewrite staticAliases_complete by reflexivity.
  now destruct (importDirectories _ _ _ _).
Qed.

(** What the constructor takes from a manifest: every declared alias
    with a name other than [__proto__] is registered, its target joined
    to the manifest's base directory when it looks absolute and as it is
    otherwise; the declared directories other than the one named
    [node_modules] are registered by [addPath] with the directory joined
    to the base, in the order declared; a directory named [node_modules]
    is not. *)
Theorem manifest_import_registers
  (env : Env) (parent : option ModRef) (opts : option GivenOptions)
  (w : World) (m : ModRef) (base : string) (pkg : PackageJson) :
  requestingModule env parent = Some m ->
  _moduleAlias (ctors w (constructor (modules w m))) = None ->
  findPackage env (candidatePackagePaths env opts) None
  = (Some base, Package pkg) ->
  base <> "" ->
  NoDup (map fst (_moduleAliases pkg)) ->
  exists h w',
    new_ModuleAlias env parent opts w = (Return h, w') /\
    (forall alias target,
        JsObject.get alias (_moduleAliases pkg) = Some target ->
        alias <> "__proto__" ->
        JsObject.get alias (moduleAliases (instances w' h))
        = Some (Static (if Path.isAbsolute target
                        then Path.join base target else target))) /\
    (exists this1,
        modulePaths this1 = [] /\
        (instances w' h, modules w')
        = fold_left
            (fun acc dir => addPath (Path.join base dir) (fst acc) (snd acc))
            (filter (fun dir => negb (String.eqb dir "node_modules"))
               match _moduleDirectories pkg with Some ds => ds | None => [] end)
            (this1, modules w)) /\
    (forall q,
        In q (modulePaths (instances w' h)) <->
        exists dir,
          In dir match _moduleDirectories pkg with Some ds => ds | None => [] end /\
          dir <> "node_modules" /\ q = Path.join base dir).
Proof.
  intros Hm Hn Hf Nb ND.
  rewrite (new_fresh env parent opts w m base pkg Hm Hn Hf Nb). cbn zeta.
  set (c := constructor (modules w m)).
  set (this := freshInstance m c _ _).
  set (this1 := addAliases _ this).
  rewrite importDirectories_filter. fold (rebased base).
  set (r := fold_left _ (registeredDirectories (_moduleDirectories pkg))
              (this1, modules w)).
  eexists. eexists. split; [reflexivity | ]. cbn [instances modules].
  unfold setInstance. rewrite Nat.eqb_refl.
  pose proof (registered_fields
                (map (Path.join base) (registeredDirectories (_moduleDirectories pkg)))
                this1 (modules w)) as RF.
  assert (Er : fold_left (fun acc p => addPath p (fst acc) (snd acc))
                 (map (Path.join base) (registeredDirectories (_moduleDirectories pkg)))
                 (this1, modules w) = r).
  { apply fold_addPath_map. }
  rewrite Er in RF. cbn zeta in RF. destruct RF as (R1 & _ & _ & R4).
  assert (P1 : modulePaths this1 = []).
  { unfold this1. now rewrite addAliases_modulePaths. }
  split; [ | split].
  - intros alias target G Na. rewrite R1. unfold this1.
    apply get_addAliases.
    + apply freshInstance_inv.
    + now left.
    + now apply staticAliases_complete.
    + rewrite staticAliases_get, (importedAliases_get base _ alias target ND G).
      reflexivity.
  - exists this1. split; [exact P1 | ]. symmetry. apply (surjective_pairing r).
  - intros q. rewrite R4, P1. unfold registeredDirectories. split.
    + intros [H|[]]. apply in_map_iff in H. destruct H as (x & <- & H).
      apply in_map_iff in H. destruct H as (dir & <- & H).
      apply filter_In in H. destruct H as [Hd Hn'].
      exists dir. split; [exact Hd | ]. split.
      * apply negb_true_iff in Hn'. now apply String.eqb_neq.
      * apply join_normalized.
    + intros (dir & Hd & Nd & ->). left.
      apply in_map_iff. exists (Path.join base dir).
      split; [apply join_normalized | ].
      apply in_map_iff. exists dir. split; [reflexivity | ].
      apply filter_In. split; [exact Hd | ].
      apply negb_true_iff. now apply String.eqb_neq.
Qed.

Lemma manifest_import_registers_witness :
  exists h w',
    new_ModuleAlias Sample.env (Some 0) None Sample.world = (Return h, w') /\
    JsObject.get "@client" (moduleAliases (instances w' h))
    = Some (Static "/app/src/client") /\
    JsObject.get "@root" (moduleAliases (instances w' h)) = Some (Static ".") /\
    (In "/app/node_modules_custom" (modulePaths (instances w' h))) /\
    ~ In "/app/node_modules" (modulePaths (instances w' h)).
Proof.
  destruct (manifest_import_registers Sample.env (Some 0) None Sample.world 0 "/app"
              Sample.manifest) as (h & w' & E & A & _ & D);
    try reflexivity.
  - discriminate.
  - repeat constructor; simpl; intuition discriminate.
  - exists h, w'. split; [exact E | ]. split; [ | split; [ | split]].
    + apply (A "@client" "/src/client"); [reflexivity | discriminate].
    + apply (A "@root" "."); [reflexivity | discriminate].
    + apply D. exists "node_modules_custom".
      split; [simpl; tauto | ]. split; [discriminate | reflexivity].
    + intros H. apply D in H. destruct H as (dir & Hd & Nd & Ed).
      destruct Hd as [<-|[<-|[]]]; [now elim Nd | discriminate].
Defined.

(** C9, on a manifest that declares an alias named [__proto__]: the
    construction returns and registers the alias [@root] with its target,
    but not the alias [__proto__].  Its assignment reaches the setter the
    dictionary inherits, the dictionary gets no key of that name, and a
    request that begins with the name is left as it is. *)
Theorem C9_proto_alias_not_registered :
  JsObject.get "__proto__" (_moduleAliases Cases.protoManifest) = Some "/lib" /\
  exists h w',
    new_ModuleAlias Cases.protoEnv (Some 0) None Sample.world = (Return h, w') /\
    moduleAliasNames (instances w' h) = ["@root"] /\
    JsObject.get "@root" (moduleAliases (instances w' h)) = Some (Static ".") /\
    JsObject.get "__proto__" (moduleAliases (instances w' h)) = None /\
    rewriteRequest (instances w' h) "__proto__/x" None = Return "__proto__/x".
Proof.
  split; [reflexivity | ]. eexists. eexists. split; [reflexivity | ].
  repeat split; reflexivity.
Qed.

Lemma new_publishes env parent opts w h w' m :
  new_ModuleAlias env parent opts w = (Return h, w') ->
  requestingModule env parent = Some m ->
  _moduleAlias (ctors w' (constructor (modules w' m))) = Some h.
Proof.
  unfold new_ModuleAlias. intros E Hm. rewrite Hm in E.
  destruct (_moduleAlias (ctors w (constructor (modules w m)))) as [h0|] eqn:G.
  - now injection E as <- <-.
  - destruct (findPackage env (candidatePackagePaths env opts) None)
      as [found [ | |pkg]]; try discriminate.
    set (base := match found with
                 | Some b => if String.eqb b "" then __dirname env else b
                 | None => __dirname env
                 end) in E.
    rewrite staticAliases_complete in E by reflexivity.
    rewrite importDirectories_filter in E.
    match type of E with
    | context [fold_left ?f ?ds (?a, modules w)] =>
        pose proof (registered_fields (map (Path.join base) ds) a (modules w))
          as RF;
        assert (Er : fold_left (fun acc p => addPath p (fst acc) (snd acc))
                       (map (Path.join base) ds) (a, modules w)
                     = fold_left f ds (a, modules w))
    end.
    { apply fold_addPath_map. }
    rewrite Er in RF. cbn zeta in RF. destruct RF as (_ & _ & R3 & _).
    destruct (fold_left _ _ _) as [this2 heap2].
    injection E as <- <-. cbn [modules ctors]. simpl in R3. rewrite R3.
    unfold setCtor. now rewrite Nat.eqb_refl.
Qed.

Lemma new_again env parent opts w m h :
  requestingModule env parent = Some m ->
  _moduleAlias (ctors w (constructor (modules w m))) = Some h ->
  new_ModuleAlias env parent opts w = (Return h, w).
Proof. intros Hm Hp. unfold new_ModuleAlias. now rewrite Hm, Hp. Qed.

(** A construction that returns leaves its instance published on the
    constructor of the module it was made for. *)
Lemma second_construction env env2 parent parent2 opts opts2 w w' h m m2 :
  new_ModuleAlias env parent opts w = (Return h, w') ->
  requestingModule env parent = Some m ->
  requestingModule env2 parent2 = Some m2 ->
  constructor (modules w' m2) = constructor (modules w' m) ->
  new_ModuleAlias env2 parent2 opts2 w' = (Return h, w').
Proof.
  intros E Hm Hm2 Hc. apply (new_again env2 parent2 opts2 w' m2 h Hm2).
  rewrite Hc. now apply (new_publishes env parent opts w h w' m).
Qed.

(** C4: when the module constructor of the requesting module carries a
    published instance, a construction returns that instance and changes no
    object of the runtime: the slots keep the functions they hold, no
    function is captured, no instance is created or altered.  What
    [addAlias] does through the handle returned is what the first handle
    reads. *)
Theorem C4_construction_idempotent
  (env : Env) (parent : option ModRef) (opts : option GivenOptions)
  (w : World) (m : ModRef) (h : InstRef) :
  requestingModule env parent = Some m ->
  _moduleAlias (ctors w (constructor (modules w m))) = Some h ->
  exists h2 w2,
    new_ModuleAlias env parent opts w = (Return h2, w2) /\
    h2 = h /\ w2 = w /\
    ctors w2 (constructor (modules w m)) = ctors w (constructor (modules w m)) /\
    instances w2 h = instances w h /\
    nextInstance w2 = nextInstance w /\
    forall alias target,
      instances (callAddAlias h2 alias target w2) h
      = addAlias alias target (instances w h).
Proof.
  intros Hm Hp. exists h, w.
  split; [now apply (new_again env parent opts w m h) | ].
  repeat (split; [reflexivity | ]).
  intros alias target. unfold callAddAlias, setInstance. simpl.
  now rewrite Nat.eqb_refl.
Qed.

Lemma C4_construction_idempotent_witness :
  exists h2 w2,
    new_ModuleAlias Sample.env2 None (Some (OptionsString "/elsewhere"))
      Sample.installed
    = (Return h2, w2) /\ h2 = 0 /\ w2 = Sample.installed.
Proof.
  destruct (C4_construction_idempotent Sample.env2 None
              (Some (OptionsString "/elsewhere")) Sample.installed 1 0)
    as (h2 & w2 & E & H & W & _); try reflexivity.
  exists h2, w2. repeat split; assumption.
Defined.

(** ** Instances as the constructor makes them *)

Lemma registered_PathSetInv (ps : list string) self heap :
  PathSetInv self ->
  PathSetInv
    (fst (fold_left (fun acc p => addPath p (fst acc) (snd acc)) ps (self, heap))).
Proof.
  revert self heap. induction ps as [|p ps IH]; intros self heap ND; [exact ND | ].
  cbn [fold_left fst snd].
  destruct (addPath p self heap) as [self1 heap1] eqn:E.
  apply IH. unfold PathSetInv in *.
  destruct (in_dec string_dec (Path.normalize p) (modulePaths self)) as [Y|Y].
  - rewrite (addPath_known p self heap Y) in E. now injection E as <- _.
  - rewrite (addPath_new p self heap Y) in E. injection E as <- _.
    now constructor.
Qed.

(** The instance a construction creates satisfies both invariants. *)
Lemma constructed_invariants env parent opts w m base pkg :
  requestingModule env parent = Some m ->
  _moduleAlias (ctors w (constructor (modules w m))) = None ->
  findPackage env (candidatePackagePaths env opts) None
  = (Some base, Package pkg) ->
  base <> "" ->
  exists h w',
    new_ModuleAlias env parent opts w = (Return h, w') /\
    AliasTableInv (instances w' h) /\ PathSetInv (instances w' h).
Proof.
  intros Hm Hn Hf Nb.
  rewrite (new_fresh env parent opts w m base pkg Hm Hn Hf Nb). cbn zeta.
  eexists. eexists. split; [reflexivity | ]. cbn [instances].
  unfold setInstance. rewrite Nat.eqb_refl.
  rewrite importDirectories_filter, <- fold_addPath_map.
  match goal with
  | |- context [fold_left _ ?ps (?a, modules w)] =>
      pose proof (registered_fields ps a (modules w)) as RF;
      pose proof (registered_PathSetInv ps a (modules w)) as RP;
      assert (IA : AliasTableInv a)
  end.
  { unfold addAliases.
    now apply (addAliases_loop _ _ _ (freshInstance_inv _ _ _ _)). }
  cbn zeta in RF. destruct RF as (R1 & R2 & _ & _). split.
  - destruct IA as [ND EN]. split; [now rewrite R1 | now rewrite R1, R2].
  - apply RP. unfold PathSetInv. rewrite addAliases_modulePaths. constructor.
Qed.

End Claims.

(** * More of the code *)

(** ** What the registration methods leave alone *)

Section FrameFacts.

Implicit Types (self : ModuleAlias) (heap : ModHeap).

Lemma addAliases_frame (aliases : ModuleAliasDict) self :
  module (addAliases aliases self) = module self /\
  ModuleCtor (addAliases aliases self) = ModuleCtor self /\
  oldNodeModulePaths (addAliases aliases self) = oldNodeModulePaths self /\
  oldResolveFilename (addAliases aliases self) = oldResolveFilename self.
Proof.
  unfold addAliases.
  destruct (addAliasesLoop_frame aliases (JsObject.keys aliases) self)
    as (A & B & C & D & _).
  now repeat split.
Qed.

Lemma addPath_frame path self heap :
  module (fst (addPath path self heap)) = module self /\
  ModuleCtor (fst (addPath path self heap)) = ModuleCtor self /\
  oldNodeModulePaths (fst (addPath path self heap)) = oldNodeModulePaths self /\
  oldResolveFilename (fst (addPath path self heap)) = oldResolveFilename self /\
  (forall r, filename (snd (addPath path self heap) r) = filename (heap r)) /\
  (forall r, r <> module self -> snd (addPath path self heap) r = heap r).
Proof.
  unfold addPath. destruct (Arr.indexOf _ (modulePaths self)); simpl.
  - now repeat split.
  - repeat split; try reflexivity.
    + intros r. unfold setPaths.
      destruct (Nat.eqb_spec r (module self)) as [->|N]; reflexivity.
    + intros r N. unfold setPaths. apply Nat.eqb_neq in N. now rewrite N.
Qed.

Lemma addPath_PathSetInv path self heap :
  PathSetInv self -> PathSetInv (fst (addPath path self heap)).
Proof.
  unfold PathSetInv. intros ND.
  destruct (in_dec string_dec (Path.normalize path) (modulePaths self)) as [Y|Y].
  - now rewrite (addPath_known path self heap Y).
  - rewrite (addPath_new path self heap Y). simpl. now constructor.
Qed.

Lemma addPath_AliasTableInv path self heap :
  AliasTableInv self -> AliasTableInv (fst (addPath path self heap)).
Proof.
  intros [ND E]. destruct (addPath_fields path self heap) as (A & B & _).
  split; [now rewrite A | now rewrite A, B].
Qed.

Lemma apiCalls_inv (cs : list ApiCall) self heap :
  AliasTableInv self -> PathSetInv self ->
  AliasTableInv (fst (apiCalls cs (self, heap))) /\
  PathSetInv (fst (apiCalls cs (self, heap))).
Proof.
  revert self heap. induction cs as [|c cs IH]; intros self heap IA IP;
    [now split | ].
  unfold apiCalls in *. cbn [fold_left].
  destruct c as [path|alias target|aliases]; cbn [apiCall fst snd].
  - pose proof (addPath_AliasTableInv path self heap IA) as IA1.
    pose proof (addPath_PathSetInv path self heap IP) as IP1.
    destruct (addPath path self heap) as [self1 heap1]. now apply IH.
  - apply IH; [now apply addAlias_inv | ].
    unfold PathSetInv.
    now rewrite (proj2 (proj2 (proj2 (proj2 (addAlias_frame alias target self))))).
  - apply IH; [now apply addAliases_AliasTableInv | ].
    unfold PathSetInv. now rewrite addAliases_modulePaths.
Qed.

Lemma apiCalls_frame (cs : list ApiCall) self heap :
  module (fst (apiCalls cs (self, heap))) = module self /\
  ModuleCtor (fst (apiCalls cs (self, heap))) = ModuleCtor self /\
  oldNodeModulePaths (fst (apiCalls cs (self, heap))) = oldNodeModulePaths self /\
  oldResolveFilename (fst (apiCalls cs (self, heap))) = oldResolveFilename self /\
  (forall r, filename (snd (apiCalls cs (self, heap)) r) = filename (heap r)) /\
  (forall r, constructor (snd (apiCalls cs (self, heap)) r) = constructor (heap r)) /\
  (forall r, r <> module self -> snd (apiCalls cs (self, heap)) r = heap r).
Proof.
  revert self heap. induction cs as [|c cs IH]; intros self heap;
    [now repeat split | ].
  unfold apiCalls in *. cbn [fold_left].
  destruct c as [path|alias target|aliases]; cbn [apiCall fst snd].
  - destruct (addPath_frame path self heap) as (F1 & F2 & F3 & F4 & F5 & F6).
    destruct (addPath_fields path self heap) as (_ & _ & F7 & _).
    destruct (addPath path self heap) as [self1 heap1]. simpl in *.
    destruct (IH self1 heap1) as (G3 & G4 & G5 & G6 & G7 & G8 & G9).
    split; [congruence | ]. split; [congruence | ].
    split; [congruence | ]. split; [congruence | ].
    split; [intros r; now rewrite G7 | ].
    split; [intros r; now rewrite G8 | ].
    intros r N. rewrite G9 by congruence. now apply F6.
  - destruct (addAlias_frame alias target self) as (F1 & F2 & F3 & F4 & _).
    destruct (IH (addAlias alias target self) heap)
      as (G3 & G4 & G5 & G6 & G7 & G8 & G9).
    split; [congruence | ]. split; [congruence | ].
    split; [congruence | ]. split; [congruence | ].
    split; [exact G7 | ]. split; [exact G8 | ].
    intros r N. apply G9. congruence.
  - destruct (addAliases_frame aliases self) as (F1 & F2 & F3 & F4).
    destruct (IH (addAliases aliases self) heap)
      as (G3 & G4 & G5 & G6 & G7 & G8 & G9).
    split; [congruence | ]. split; [congruence | ].
    split; [congruence | ]. split; [congruence | ].
    split; [exact G7 | ]. split; [exact G8 | ].
    intros r N. apply G9. congruence.
Qed.

End FrameFacts.

(** ** Registration calls, in any order *)

Section RegistrationProperties.

Implicit Types (self : ModuleAlias) (heap : ModHeap).

(** Whatever public methods are called on an instance, in whatever order,
    the name index stays the sorted key list of the alias dictionary and
    the Path Set stays free of repeated directories. *)
Theorem api_calls_keep_invariants (cs : list ApiCall) self heap :
  AliasTableInv self -> PathSetInv self ->
  AliasTableInv (fst (apiCalls cs (self, heap))) /\
  PathSetInv (fst (apiCalls cs (self, heap))).
Proof. apply apiCalls_inv. Qed.

Lemma api_calls_keep_invariants_witness :
  AliasTableInv (fst Cases.busy) /\ PathSetInv (fst Cases.busy).
Proof.
  apply (api_calls_keep_invariants
           [CallAddPath "/app/lib"; CallAddAlias "@a" (Static "/x");
            CallAddPath "/app/./vendor/"] Sample.fresh Sample.heap).
  - apply freshInstance_inv.
  - constructor.
Defined.

(** No public method rebinds what the constructor captured: the owning
    module, its constructor and the two original functions stay as they
    are.  Of the module objects only the owning module's search-path list
    can change; file names, constructors and every other module are left
    alone. *)
Theorem api_calls_keep_captured (cs : list ApiCall) self heap :
  module (fst (apiCalls cs (self, heap))) = module self /\
  ModuleCtor (fst (apiCalls cs (self, heap))) = ModuleCtor self /\
  oldNodeModulePaths (fst (apiCalls cs (self, heap))) = oldNodeModulePaths self /\
  oldResolveFilename (fst (apiCalls cs (self, heap))) = oldResolveFilename self /\
  (forall r, filename (snd (apiCalls cs (self, heap)) r) = filename (heap r)) /\
  (forall r, constructor (snd (apiCalls cs (self, heap)) r) = constructor (heap r)) /\
  (forall r, r <> module self -> snd (apiCalls cs (self, heap)) r = heap r).
Proof. apply apiCalls_frame. Qed.

(** [addPath] and [addAlias] do not interfere: in either order they give
    the same instance and the same module objects. *)
Theorem addPath_addAlias_commute path alias target self heap :
  addPath path (addAlias alias target self) heap
  = (addAlias alias target (fst (addPath path self heap)),
     snd (addPath path self heap)).
Proof.
  unfold addPath.
  destruct (addAlias_frame alias target self) as (Fm & _ & _ & _ & Fp).
  rewrite Fp, Fm.
  destruct (Arr.indexOf (Path.normalize path) (modulePaths self));
    cbn [fst snd]; [reflexivity | ].
  unfold addAlias, addAliasCall.
  cbn [moduleAliases moduleAliasesPrototype withModulePaths].
  now destruct (assignAlias alias target (moduleAliasesPrototype self)
                  (moduleAliases self)) as [[proto d]|e].
Qed.

(** A directory that is new to the Path Set takes priority over what was
    registered before: outside dependency directories the directory list
    gains it as first entry, ahead of the earlier Path Set and of the
    delegate's list; a request from a dependency directory sees no
    difference. *)
Theorem addPath_takes_priority path self heap from :
  ~ In (Path.normalize path) (modulePaths self) ->
  (~ occursIn "node_modules" from ->
   nodeModulePaths (fst (addPath path self heap)) from
   = Path.normalize path :: nodeModulePaths self from) /\
  (occursIn "node_modules" from ->
   nodeModulePaths (fst (addPath path self heap)) from
   = nodeModulePaths self from).
Proof.
  intros Y. rewrite (addPath_new path self heap Y). cbn [fst].
  assert (N : "node_modules" <> "") by discriminate.
  unfold nodeModulePaths. cbn [oldNodeModulePaths withModulePaths modulePaths].
  destruct (Str.indexOf "node_modules" from) as [k|] eqn:E.
  - split; [ | reflexivity]. intros H.
    apply (indexOf_None_iff _ _ N) in H. congruence.
  - split; [reflexivity | ]. intros H.
    apply (indexOf_None_iff _ _ N) in E. tauto.
Qed.

Lemma addPath_takes_priority_witness :
  nodeModulePaths (fst (addPath "/app/vendor/" Sample.withLib Sample.heap)) "/app/src"
  = "/app/vendor/" :: nodeModulePaths Sample.withLib "/app/src".
Proof.
  apply (addPath_takes_priority "/app/vendor/" Sample.withLib Sample.heap "/app/src").
  - simpl. intros [H|[]]. discriminate.
  - apply (indexOf_None_iff "node_modules" "/app/src"); [discriminate | reflexivity].
Defined.

Lemma frontInsert_incl x (l : list string) : incl (x :: l) (frontInsert x l).
Proof.
  unfold frontInsert. destruct (in_dec string_dec x l) as [Y|Y].
  - intros y [<-|H]; assumption.
  - apply incl_refl.
Qed.

Lemma addPath_threaded path self heap :
  PathsThreaded self heap ->
  PathsThreaded (fst (addPath path self heap)) (snd (addPath path self heap)).
Proof.
  intros T.
  destruct (in_dec string_dec (Path.normalize path) (modulePaths self)) as [Y|Y].
  - now rewrite (addPath_known path self heap Y).
  - rewrite (addPath_new path self heap Y). unfold PathsThreaded.
    cbn [fst snd module withModulePaths modulePaths].
    rewrite setPaths_same. intros own E.
    destruct (paths (heap (module self))) as [pp|] eqn:P; [ | discriminate].
    simpl in E. injection E as <-.
    eapply incl_tran; [ | apply frontInsert_incl].
    intros y [<-|H]; [now left | right]. now apply (T pp).
Qed.

Lemma apiCalls_threaded (cs : list ApiCall) self heap :
  PathsThreaded self heap ->
  PathsThreaded (fst (apiCalls cs (self, heap))) (snd (apiCalls cs (self, heap))).
Proof.
  revert self heap. induction cs as [|c cs IH]; intros self heap T; [exact T | ].
  unfold apiCalls in *. cbn [fold_left].
  destruct c as [path|alias target|aliases]; cbn [apiCall fst snd].
  - pose proof (addPath_threaded path self heap T) as T1.
    destruct (addPath path self heap) as [self1 heap1]. now apply IH.
  - apply IH. unfold PathsThreaded in *.
    destruct (addAlias_frame alias target self) as (F1 & _ & _ & _ & F5).
    now rewrite F1, F5.
  - apply IH. unfold PathsThreaded in *.
    destruct (addAliases_frame aliases self) as (F1 & _).
    now rewrite F1, addAliases_modulePaths.
Qed.

(** The owning module's own search-path list, when the module has one,
    holds every directory of the Path Set, and no run of public methods
    breaks that. *)
Theorem api_calls_keep_paths_threaded (cs : list ApiCall) self heap :
  PathsThreaded self heap ->
  PathsThreaded (fst (apiCalls cs (self, heap))) (snd (apiCalls cs (self, heap))).
Proof. apply apiCalls_threaded. Qed.

Lemma api_calls_keep_paths_threaded_witness :
  PathsThreaded (fst Cases.busy) (snd Cases.busy).
Proof.
  apply (api_calls_keep_paths_threaded
           [CallAddPath "/app/lib"; CallAddAlias "@a" (Static "/x");
            CallAddPath "/app/./vendor/"] Sample.fresh Sample.heap).
  intros own _ y [].
Defined.

End RegistrationProperties.

(** ** The wrapped filename resolver *)

Section ResolverProperties.

Implicit Types (self : ModuleAlias) (heap : ModHeap).

(** Before delegating, the wrapper changes nothing but the search-path
    list of the requesting module: that module keeps its file name and
    constructor, and every other module object reaches the delegate as it
    was. *)
Theorem resolveFilename_touches_parent_only
  self request request' (p : ModRef) (args : list JsValue) heap :
  rewriteRequest self request (Some (heap p)) = Return request' ->
  exists heap',
    resolveFilename self request (Some p) args heap
    = oldResolveFilename self request' (Some p) args heap' /\
    filename (heap' p) = filename (heap p) /\
    constructor (heap' p) = constructor (heap p) /\
    forall r, r <> p -> heap' r = heap r.
Proof.
  intros E.
  exists (setPaths p (Some (repairedPaths self (paths (heap p)))) heap).
  split; [now apply (resolveFilename_after_rewrite self request request' (Some p)) | ].
  unfold setPaths. rewrite Nat.eqb_refl. split; [reflexivity | ].
  split; [reflexivity | ]. intros r N. apply Nat.eqb_neq in N. now rewrite N.
Qed.

Lemma resolveFilename_touches_parent_only_witness :
  exists heap',
    resolveFilename Sample.client "@client/x" (Some 3) [] Sample.heap
    = oldResolveFilename Sample.client "/src/client/x" (Some 3) [] heap' /\
    heap' 4 = Sample.heap 4.
Proof.
  destruct (resolveFilename_touches_parent_only Sample.client "@client/x"
              "/src/client/x" 3 [] Sample.heap eq_refl)
    as (heap' & E & _ & _ & F).
  exists heap'. split; [exact E | ]. apply F. discriminate.
Defined.

Lemma normalize_isAbsolute p :
  p <> "" -> Path.isAbsolute (Path.normalize p) = Path.isAbsolute p.
Proof.
  intros N. rewrite (normalize_render p N). apply isAbsolute_render.
  apply Forall_rev. apply (retained_segments (negb (Path.isAbsolute p))).
  apply fold_retained; [exact I | apply split_segments_noSep].
Qed.

Lemma join_isAbsolute t rest :
  Path.isAbsolute t = true -> Path.isAbsolute (Path.join t rest) = true.
Proof.
  intros A. destruct t as [|c t]; [discriminate | ].
  destruct rest as [|d rest]; unfold Path.join.
  - now rewrite normalize_isAbsolute.
  - rewrite normalize_isAbsolute by discriminate. exact A.
Qed.

(** Whenever a static alias applies, the request handed on is a normalized
    path, and it is absolute when the alias target is. *)
Theorem rewritten_request_normalized self request alias target parent :
  matchedAlias self request = Some alias ->
  JsObject.get alias (moduleAliases self) = Some (Static target) ->
  exists request',
    rewriteRequest self request parent = Return request' /\
    Path.normalize request' = request' /\
    (Path.isAbsolute target = true -> Path.isAbsolute request' = true).
Proof.
  intros M G.
  exists (Path.join target (Str.substr (String.length alias) request)).
  split; [now apply rewriteRequest_static | ].
  split; [apply join_normalized | apply join_isAbsolute].
Qed.

Lemma rewritten_request_normalized_witness :
  exists request',
    rewriteRequest Sample.client "@client/a/../b//c" None = Return request' /\
    Path.normalize request' = request'.
Proof.
  destruct (rewritten_request_normalized Sample.client "@client/a/../b//c"
              "@client" "/src/client" None eq_refl eq_refl)
    as (request' & E & N & _).
  now exists request'.
Defined.

Lemma fold_set_facts (l : list string) (o : JsObject.t bool) :
  NoDup (map fst o) ->
  NoDup (map fst (fold_left (fun o path => JsObject.set path true o) l o)) /\
  forall k, In k (map fst (fold_left (fun o path => JsObject.set path true o) l o))
            <-> In k (map fst o) \/ (In k l /\ k <> "__proto__").
Proof.
  revert o. induction l as [|x l IH]; intros o ND.
  - simpl. split; [exact ND | ]. intros k. tauto.
  - cbn [fold_left].
    destruct (IH (JsObject.set x true o) (set_NoDup x true o ND)) as [ND' M].
    split; [exact ND' | ]. intros k. rewrite M, map_fst_set. simpl.
    destruct (JsObject.has x o) eqn:H.
    + apply has_true_iff in H. split; [tauto | ].
      intros [K|[[<-|K] N]]; tauto.
    + destruct (String.eqb_spec x "__proto__") as [->|N].
      * split; [tauto | ]. intros [K|[[<-|K] N]]; tauto.
      * rewrite in_app_iff. simpl. split.
        -- intros [[K|[<-|[]]]|K]; tauto.
        -- intros [K|[[<-|K] N']]; tauto.
Qed.

(** The list assigned to the requesting module holds no directory twice,
    and holds exactly the directories of the Path Set and of the module's
    earlier list, a directory named [__proto__] excepted. *)
Theorem repairedPaths_is_union self (own : option (list string)) :
  NoDup (repairedPaths self own) /\
  forall q, In q (repairedPaths self own) <->
            (In q (modulePaths self)
             \/ In q match own with Some l => l | None => [] end)
            /\ q <> "__proto__".
Proof.
  unfold repairedPaths.
  set (l := match own with
            | Some pp => (modulePaths self ++ pp)%list
            | None => modulePaths self
            end).
  destruct (fold_set_facts l JsObject.empty) as [ND M]; [constructor | ].
  split; [now apply keys_NoDup | ].
  intros q. rewrite keys_In, M. simpl. unfold l.
  destruct own as [pp|]; [rewrite in_app_iff | ]; tauto.
Qed.

Lemma dedup_append seen (a b : list string) :
  dedup seen (a ++ b)
  = (dedup seen a ++ dedup (seen ++ dedup seen a) b)%list.
Proof.
  revert seen. induction a as [|x a IH]; intros seen; simpl.
  - now rewrite app_nil_r.
  - destruct (existsb (String.eqb x) seen); [apply IH | ].
    rewrite IH. simpl. now rewrite <- app_assoc.
Qed.

Lemma dedup_seen seen (l : list string) : incl l seen -> dedup seen l = [].
Proof.
  induction l as [|x l IH]; intros H; [reflexivity | ]. simpl.
  assert (E : existsb (String.eqb x) seen = true).
  { apply existsb_eqb_In, H. now left. }
  rewrite E. apply IH. intros y Hy. apply H. now right.
Qed.

Lemma dedup_dedup seen (l : list string) :
  dedup seen (dedup seen l) = dedup seen l.
Proof.
  revert seen. induction l as [|x l IH]; intros seen; [reflexivity | ]. simpl.
  destruct (existsb (String.eqb x) seen) eqn:E; [apply IH | ].
  simpl. now rewrite E, IH.
Qed.

Lemma orderedUnion_again (first second : list string) :
  orderedUnion first (orderedUnion first second) = orderedUnion first second.
Proof.
  unfold orderedUnion. rewrite (dedup_append [] first second).
  rewrite dedup_append. f_equal. simpl.
  rewrite dedup_append, dedup_seen by apply incl_refl.
  simpl. rewrite app_nil_r. apply dedup_dedup.
Qed.

(** Resolving again does not grow or reorder the requesting module's list:
    for ordinary directory names, repairing the repaired list gives the
    same list. *)
Theorem repair_is_stable self (own : option (list string)) :
  Forall ordinaryName
    (modulePaths self ++ match own with Some l => l | None => [] end)%list ->
  repairedPaths self (Some (repairedPaths self own)) = repairedPaths self own.
Proof.
  intros F. rewrite (repairedPaths_ordinary self own F).
  rewrite (repairedPaths_ordinary self (Some _)).
  - apply orderedUnion_again.
  - apply Forall_app. split.
    + apply Forall_app in F. tauto.
    + apply Forall_forall. intros k Hk. unfold orderedUnion in Hk.
      apply dedup_In in Hk. rewrite Forall_forall in F. now apply F.
Qed.

Lemma repair_is_stable_witness :
  repairedPaths Sample.withLib
    (Some (repairedPaths Sample.withLib (Some ["/app/node_modules"; "/app/lib"])))
  = repairedPaths Sample.withLib (Some ["/app/node_modules"; "/app/lib"]).
Proof.
  apply (repair_is_stable Sample.withLib (Some ["/app/node_modules"; "/app/lib"])).
  repeat constructor; discriminate.
Defined.

End ResolverProperties.

(** ** The boundary test and the alias dictionary *)

Section MatchingProperties.

Implicit Types (self : ModuleAlias) (a b request : string).

(** The boundary test orders aliases and requests: every text matches
    itself, a request that matches an alias also matches every alias that
    alias matches, and two texts that match each other are equal.  A match
    never has an alias longer than the request. *)
Theorem boundary_match_is_an_order :
  (forall a, isPathMatchesAlias a a = true) /\
  (forall request b a,
      isPathMatchesAlias request b = true ->
      isPathMatchesAlias b a = true ->
      isPathMatchesAlias request a = true) /\
  (forall a b,
      isPathMatchesAlias a b = true -> isPathMatchesAlias b a = true -> a = b) /\
  (forall request a,
      isPathMatchesAlias request a = true ->
      String.length a <= String.length request).
Proof.
  assert (L : forall request a, isPathMatchesAlias request a = true ->
                                String.length a <= String.length request).
  { intros request a H. apply match_startsWith in H. destruct H as [r ->].
    rewrite length_append. lia. }
  split; [ | split; [ | split]].
  - intros a. apply isPathMatchesAlias_iff. now left.
  - intros request b a Hb Ha. apply isPathMatchesAlias_iff.
    apply isPathMatchesAlias_iff in Hb, Ha.
    destruct Hb as [->|[r1 ->]]; [exact Ha | ].
    destruct Ha as [->|[r2 ->]]; [right; now exists r1 | ].
    right. exists (r2 ++ "/" ++ r1). now rewrite !append_assoc.
  - intros a b Hab Hba. apply (match_same_length a).
    + apply isPathMatchesAlias_iff. now left.
    + exact Hab.
    + apply Nat.le_antisymm; [now apply L in Hba | now apply L in Hab].
  - exact L.
Qed.

Lemma boundary_match_is_an_order_witness :
  isPathMatchesAlias "@a/sub/file" "@a" = true.
Proof.
  destruct boundary_match_is_an_order as (_ & T & _).
  apply (T "@a/sub/file" "@a/sub" "@a"); reflexivity.
Defined.

(** The empty alias matches the empty request and every request that
    begins with a separator, and no other. *)
Theorem empty_alias_matches_absolute request :
  isPathMatchesAlias request "" = true <->
  request = "" \/ Path.isAbsolute request = true.
Proof.
  rewrite isPathMatchesAlias_iff. split.
  - intros [->|[rest ->]]; [now left | now right].
  - intros [->|A]; [now left | ].
    destruct request as [|c r]; [discriminate | ].
    simpl in A. apply Ascii.eqb_eq in A. subst c. right. now exists r.
Qed.

Lemma empty_alias_matches_absolute_witness :
  isPathMatchesAlias "/etc/passwd" "" = true.
Proof.
  apply (empty_alias_matches_absolute "/etc/passwd"). now right.
Defined.

(** [addAliases] completes on a dictionary with the prototype of an
    object literal when every target is a string.  After a call that
    completes, the registered names are the earlier ones together with
    the keys of the argument, a key [__proto__] excepted, and each key of
    the argument carries the argument's target. *)
Theorem addAliases_registers_keys (aliases : ModuleAliasDict) self :
  AliasTableInv self ->
  (moduleAliasesPrototype self = ObjectPrototype ->
   (forall k t, JsObject.get k aliases = Some t -> exists s, t = Static s) ->
   addAliasesThrows aliases self = None) /\
  (addAliasesThrows aliases self = None ->
   (forall n, In n (moduleAliasNames (addAliases aliases self)) <->
              In n (moduleAliasNames self)
              \/ (In n (map fst aliases) /\ n <> "__proto__")) /\
   (forall n t, JsObject.get n aliases = Some t -> n <> "__proto__" ->
                JsObject.get n (moduleAliases (addAliases aliases self))
                = Some t)).
Proof.
  intros I. split.
  { intros P St. unfold addAliasesThrows. now apply addAliasesLoop_static. }
  intros C.
  pose proof (addAliases_AliasTableInv aliases self I) as I'.
  destruct (inv_names self I) as (_ & _ & _ & K).
  destruct (inv_names _ I') as (_ & _ & _ & K').
  destruct (addAliases_loop aliases (JsObject.keys aliases) self I)
    as (_ & _ & P & _). cbn zeta in P. fold (addAliases aliases self) in P.
  assert (O : forall (o : ModuleAliasDict) n,
              JsObject.get n o <> None <-> In n (map fst o)).
  { intros o n. rewrite get_None_iff.
    destruct (in_dec string_dec n (map fst o)); tauto. }
  split.
  - intros n. rewrite K', K.
    destruct (JsObject.get n aliases) as [t|] eqn:G.
    + assert (Y : In n (map fst aliases)) by (apply O; congruence).
      destruct (string_dec n "__proto__") as [E|N].
      * destruct (JsObject.get n (moduleAliases self)) eqn:G0.
        -- assert (A : assignable n self) by (right; apply O; congruence).
           rewrite (get_addAliases n t aliases self I A C G).
           split; intros _; [left | ]; discriminate.
        -- split; [ | intros [H|[_ H]]; [now elim H | now elim H]].
           intros H. exfalso. apply O, P in H.
           destruct H as [H|H]; [ | now elim H].
           apply get_None_iff in G0. tauto.
      * rewrite (get_addAliases n t aliases self I (or_introl N) C G).
        split; [intros _; right; now split | intros _; discriminate].
    + rewrite (get_addAliases_other n aliases self I G).
      apply get_None_iff in G. tauto.
  - intros n t G N.
    now apply (get_addAliases n t aliases self I (or_introl N) C G).
Qed.

Lemma addAliases_registers_keys_witness :
  In "@b" (moduleAliasNames
             (addAliases [("@b", Static "/b"); ("@c", Static "/c")] Sample.nested)).
Proof.
  destruct (addAliases_registers_keys
              [("@b", Static "/b"); ("@c", Static "/c")] Sample.nested
              Sample_nested_inv) as [_ H].
  apply (H eq_refl). right. split; [simpl; tauto | discriminate].
Defined.



End MatchingProperties.

(** ** The constructor *)

Section ConstructorProperties.

Lemma substring_prefix (b r : string) :
  String.substring 0 (String.length b) (b ++ r) = b.
Proof.
  induction b as [|c b IH]; simpl; [now destruct r | now rewrite IH].
Qed.

Lemma stripSuffix_append (suffix b : string) :
  Str.stripSuffix suffix (b ++ suffix) = b.
Proof.
  unfold Str.stripSuffix, Str.endsWith. rewrite length_append.
  replace (String.length b + String.length suffix - String.length suffix)
    with (String.length b) by lia.
  rewrite substr_append, String.eqb_refl, substring_prefix.
  assert (L : (String.length suffix <=? String.length b + String.length suffix)%nat
              = true) by (apply Nat.leb_le; lia).
  now rewrite L.
Qed.

(** The [base] option may name the manifest's directory or the manifest
    file in it, as a string or inside an options object: the constructor
    looks in the same single directory, resolved against the working
    directory. *)
Theorem base_may_name_the_manifest (env : Env) (b : string) :
  b <> "" -> Str.endsWith "/package.json" b = false ->
  candidatePackagePaths env (Some (OptionsString b)) = [Path.resolve (cwd env) b] /\
  candidatePackagePaths env (Some (OptionsObject (Some b)))
  = [Path.resolve (cwd env) b] /\
  candidatePackagePaths env (Some (OptionsString (b ++ "/package.json")))
  = [Path.resolve (cwd env) b].
Proof.
  intros N E. unfold candidatePackagePaths.
  rewrite stripSuffix_append.
  assert (S : Str.stripSuffix "/package.json" b = b).
  { unfold Str.stripSuffix. now rewrite E. }
  rewrite S. apply String.eqb_neq in N. rewrite N.
  repeat split. destruct b; [discriminate | reflexivity].
Qed.

Lemma base_may_name_the_manifest_witness :
  candidatePackagePaths Sample.env (Some (OptionsString "srv/app/package.json"))
  = ["/app/srv/app"].
Proof.
  destruct (base_may_name_the_manifest Sample.env "srv/app") as (_ & _ & H);
    [discriminate | reflexivity | exact H].
Defined.

(** The manifest comes from the first candidate directory whose
    [package.json] loads: every directory before it failed to load and
    none after it is tried, and that directory is the base.  When nothing
    loads, every candidate was tried and failed. *)
Theorem findPackage_first_success
  (env : Env) (candidates : list string) (base0 found : option string)
  (loaded : Required) :
  findPackage env candidates base0 = (found, loaded) ->
  (loaded = RequireThrows /\
   forall c, In c candidates ->
             require env (Path.join c "package.json") = RequireThrows) \/
  (exists before c after,
      candidates = (before ++ c :: after)%list /\
      found = Some c /\
      loaded = require env (Path.join c "package.json") /\
      loaded <> RequireThrows /\
      forall c', In c' before ->
                 require env (Path.join c' "package.json") = RequireThrows).
Proof.
  revert base0. induction candidates as [|c cs IH]; intros base0 E.
  - simpl in E. injection E as <- <-. left. split; [reflexivity | ].
    intros c [].
  - simpl in E.
    destruct (require env (Path.join c "package.json")) as [ | |pkg] eqn:R.
    + destruct (IH _ E) as [[L A]|(before & c0 & after & Ec & Ef & El & Nl & B)].
      * left. split; [exact L | ]. intros c' [<-|H]; auto.
      * right. exists (c :: before), c0, after. rewrite Ec.
        repeat split; auto. intros c' [<-|H]; auto.
    + injection E as <- <-. right. exists [], c, cs.
      repeat split; auto; [discriminate | intros c' []].
    + injection E as <- <-. right. exists [], c, cs.
      repeat split; auto; [discriminate | intros c' []].
Qed.

Lemma findPackage_first_success_witness :
  exists before c after,
    candidatePackagePaths Cases.secondOnly None = (before ++ c :: after)%list /\
    c = "/work" /\
    forall c', In c' before ->
               require Cases.secondOnly (Path.join c' "package.json") = RequireThrows.
Proof.
  destruct (findPackage_first_success Cases.secondOnly
              (candidatePackagePaths Cases.secondOnly None) None
              (Some "/work") (Package Sample.manifest) eq_refl)
    as [[L _]|(before & c & after & Ec & Ef & _ & _ & B)]; [discriminate | ].
  exists before, c, after. split; [exact Ec | ]. split; [congruence | exact B].
Defined.

End ConstructorProperties.

Section ConstructionEffects.

Lemma fold_addPath_apiCalls (ps : list string) (st : ModuleAlias * ModHeap) :
  fold_left (fun acc p => addPath p (fst acc) (snd acc)) ps st
  = apiCalls (map CallAddPath ps) st.
Proof.
  revert st. induction ps as [|p ps IH]; intros st; [reflexivity | ].
  unfold apiCalls in *. cbn [map fold_left apiCall]. apply IH.
Qed.

Lemma importDirectories_apiCalls base dirs self heap :
  importDirectories base dirs self heap
  = apiCalls (map CallAddPath (map (Path.join base) (registeredDirectories dirs)))
      (self, heap).
Proof.
  now rewrite importDirectories_filter, <- fold_addPath_map, fold_addPath_apiCalls.
Qed.

Lemma apiCalls_own_grows (cs : list ApiCall) self heap own :
  paths (heap (module self)) = Some own ->
  exists own',
    paths (snd (apiCalls cs (self, heap)) (module self)) = Some own' /\
    incl own own'.
Proof.
  revert self heap own. induction cs as [|c cs IH]; intros self heap own P.
  - exists own. split; [exact P | apply incl_refl].
  - unfold apiCalls in *. cbn [fold_left].
    destruct c as [path|alias target|aliases]; cbn [apiCall fst snd].
    + destruct (addPath_frame path self heap) as (F1 & _).
      assert (P1 : exists own1,
                 paths (snd (addPath path self heap) (module self)) = Some own1 /\
                 incl own own1).
      { destruct (in_dec string_dec (Path.normalize path) (modulePaths self))
          as [Y|Y].
        - rewrite (addPath_known path self heap Y). exists own.
          split; [exact P | apply incl_refl].
        - rewrite (addPath_new path self heap Y). cbn [snd].
          rewrite setPaths_same, P. simpl. eexists. split; [reflexivity | ].
          eapply incl_tran; [ | apply frontInsert_incl]. apply incl_tl, incl_refl. }
      destruct P1 as (own1 & P1 & I1).
      destruct (addPath path self heap) as [self1 heap1]. simpl in *.
      rewrite <- F1 in P1. destruct (IH self1 heap1 own1 P1) as (own' & P' & I').
      exists own'. rewrite <- F1. split; [exact P' | ].
      now apply (incl_tran I1).
    + destruct (addAlias_frame alias target self) as (F1 & _).
      rewrite <- F1 in P. destruct (IH _ heap own P) as (own' & P' & I').
      exists own'. rewrite <- F1. now split.
    + destruct (addAliases_frame aliases self) as (F1 & _).
      rewrite <- F1 in P. destruct (IH _ heap own P) as (own' & P' & I').
      exists own'. rewrite <- F1. now split.
Qed.

(** A construction that finds no manifest throws after it has replaced the
    two functions of the module constructor, and publishes nothing: the
    wrappers of the abandoned instance stay in the slots.  With its empty
    tables the abandoned instance lets every call through: the directory
    list is the original one, and a filename request reaches the original
    resolver unchanged, after the requesting module's list has lost its
    repeated entries. *)
Theorem failed_construction_keeps_wrappers
  (env : Env) (parent : option ModRef) (opts : option GivenOptions) (w : World)
  (m : ModRef) (fp : FuncNodeModulePaths) (fr : FuncResolveFileName)
  (found : option string) (loaded : Required) :
  requestingModule env parent = Some m ->
  ctors w (constructor (modules w m)) = mkCtor (Native fp) (Native fr) None ->
  findPackage env (candidatePackagePaths env opts) None = (found, loaded) ->
  (forall pkg, loaded <> Package pkg) ->
  exists w1,
    new_ModuleAlias env parent opts w
    = (Throw (noPackageError (candidatePackagePaths env opts)), w1) /\
    modules w1 = modules w /\
    ctors w1 (constructor (modules w m))
    = mkCtor (Wrapper (nextInstance w)) (Wrapper (nextInstance w)) None /\
    nextInstance w1 = S (nextInstance w) /\
    (forall from, callNodeModulePaths (constructor (modules w m)) from w1 = fp from) /\
    (forall request args,
        fst (callResolveFilename (constructor (modules w m)) request None args w1)
        = fst (fr request None args (modules w))) /\
    (forall request p args,
        fst (callResolveFilename (constructor (modules w m)) request (Some p) args w1)
        = fst (fr request (Some p) args
                 (setPaths p
                    (Some (JsObject.keys
                             (fold_left (fun o path => JsObject.set path true o)
                                match paths (modules w p) with
                                | Some own => own
                                | None => []
                                end JsObject.empty)))
                    (modules w)))).
Proof.
  intros Hm Hc Hf Hl. unfold new_ModuleAlias. rewrite Hm, Hc, Hf.
  cbn [_moduleAlias _nodeModulePaths _resolveFilename
       capturedNodeModulePaths capturedResolveFilename].
  set (c := constructor (modules w m)).
  set (self := nextInstance w).
  set (this := mkModuleAlias m c fp fr [] JsObject.empty ObjectPrototype []).
  eexists. split.
  { destruct loaded as [ | |pkg]; [reflexivity | reflexivity | now elim (Hl pkg)]. }
  cbn [modules ctors nextInstance].
  split; [reflexivity | ].
  assert (Ec : setCtor c (mkCtor (Wrapper self) (Wrapper self) None) (ctors w) c
               = mkCtor (Wrapper self) (Wrapper self) None).
  { unfold setCtor. now rewrite Nat.eqb_refl. }
  assert (Ei : setInstance self this (instances w) self = this).
  { unfold setInstance. now rewrite Nat.eqb_refl. }
  split; [exact Ec | ]. split; [reflexivity | ].
  split; [ | split].
  - intros from. unfold callNodeModulePaths. cbn [ctors instances]. rewrite Ec.
    cbn [_nodeModulePaths capturedNodeModulePaths instances]. rewrite Ei.
    unfold nodeModulePaths. cbn [oldNodeModulePaths modulePaths this].
    now destruct (Str.indexOf "node_modules" from).
  - intros request args. unfold callResolveFilename. cbn [ctors instances modules].
    rewrite Ec. cbn [_resolveFilename capturedResolveFilename instances].
    rewrite Ei. unfold resolveFilename, rewriteRequest, matchedAlias.
    cbn [moduleAliasNames this rev find option_map oldResolveFilename].
    now destruct (fr request None args (modules w)).
  - intros request p args. unfold callResolveFilename.
    cbn [ctors instances modules].
    rewrite Ec. cbn [_resolveFilename capturedResolveFilename instances].
    rewrite Ei. unfold resolveFilename, rewriteRequest, matchedAlias.
    cbn [moduleAliasNames this rev find option_map oldResolveFilename].
    unfold repairedPaths. cbn [modulePaths this app].
    destruct (paths (modules w p)) as [own|];
      match goal with |- context [fr ?a ?b ?c ?d] => now destruct (fr a b c d) end.
Qed.

Lemma failed_construction_keeps_wrappers_witness :
  exists w1,
    new_ModuleAlias Sample.env2 None None Sample.world
    = (Throw (noPackageError (candidatePackagePaths Sample.env2 None)), w1) /\
    _moduleAlias (ctors w1 0) = None /\
    callNodeModulePaths 0 "/app/src" w1 = Sample.nativePaths "/app/src".
Proof.
  destruct (failed_construction_keeps_wrappers Sample.env2 None None Sample.world
              1 Sample.nativePaths Sample.echoResolve (Some "/") RequireThrows)
    as (w1 & E & _ & C & _ & P & _); try reflexivity.
  - discriminate.
  - exists w1. split; [exact E | ]. split; [ | apply P].
    change 0 with (constructor (modules Sample.world 1)). now rewrite C.
Defined.

(** A construction that succeeds on a constructor holding the runtime's
    own functions captures exactly those, binds the instance to the
    requesting module and its constructor, puts wrappers of the new
    instance into both slots and publishes the instance there; other
    constructors and instances are not touched.  From then on a call
    through either slot is a call of the instance's method with the tables
    the instance has at that moment. *)
Theorem construction_installs_wrappers
  (env : Env) (parent : option ModRef) (opts : option GivenOptions) (w : World)
  (m : ModRef) (fp : FuncNodeModulePaths) (fr : FuncResolveFileName)
  (base : string) (pkg : PackageJson) :
  requestingModule env parent = Some m ->
  ctors w (constructor (modules w m)) = mkCtor (Native fp) (Native fr) None ->
  findPackage env (candidatePackagePaths env opts) None
  = (Some base, Package pkg) ->
  base <> "" ->
  exists h w',
    new_ModuleAlias env parent opts w = (Return h, w') /\
    h = nextInstance w /\ nextInstance w' = S h /\
    ctors w' (constructor (modules w m)) = mkCtor (Wrapper h) (Wrapper h) (Some h) /\
    (forall c', c' <> constructor (modules w m) -> ctors w' c' = ctors w c') /\
    (forall h', h' <> h -> instances w' h' = instances w h') /\
    module (instances w' h) = m /\
    ModuleCtor (instances w' h) = constructor (modules w m) /\
    oldNodeModulePaths (instances w' h) = fp /\
    oldResolveFilename (instances w' h) = fr /\
    (forall from,
        callNodeModulePaths (constructor (modules w m)) from w'
        = nodeModulePaths (instances w' h) from) /\
    (forall request p args,
        fst (callResolveFilename (constructor (modules w m)) request p args w')
        = fst (resolveFilename (instances w' h) request p args (modules w'))).
Proof.
  intros Hm Hc Hf Nb.
  assert (Hn : _moduleAlias (ctors w (constructor (modules w m))) = None)
    by now rewrite Hc.
  rewrite (new_fresh env parent opts w m base pkg Hm Hn Hf Nb). cbn zeta.
  rewrite Hc. cbn [_nodeModulePaths _resolveFilename
                   capturedNodeModulePaths capturedResolveFilename].
  set (c := constructor (modules w m)).
  set (self := nextInstance w).
  rewrite importDirectories_apiCalls.
  match goal with
  | |- context [apiCalls ?cs (?a, modules w)] =>
      set (r := apiCalls cs (a, modules w));
      pose proof (apiCalls_frame cs a (modules w)) as FR;
      destruct (addAliases_frame
                  (staticAliases (importedAliases base (_moduleAliases pkg)))
                  (freshInstance m c fp fr)) as (A1 & A2 & A3 & A4)
  end.
  fold r in FR. destruct FR as (F1 & F2 & F3 & F4 & _).
  eexists. eexists. split; [reflexivity | ].
  cbn [ctors instances nextInstance modules].
  assert (Ec : setCtor c (mkCtor (Wrapper self) (Wrapper self) (Some self))
                 (ctors w) c
               = mkCtor (Wrapper self) (Wrapper self) (Some self)).
  { unfold setCtor. now rewrite Nat.eqb_refl. }
  assert (Ei : setInstance self (fst r) (instances w) self = fst r).
  { unfold setInstance. now rewrite Nat.eqb_refl. }
  rewrite Ei.
  split; [reflexivity | ]. split; [reflexivity | ]. split; [exact Ec | ].
  split; [intros c' N; unfold setCtor; apply Nat.eqb_neq in N; now rewrite N | ].
  split; [intros h' N; unfold setInstance; apply Nat.eqb_neq in N; now rewrite N | ].
  split; [now rewrite F1, A1 | ]. split; [now rewrite F2, A2 | ].
  split; [now rewrite F3, A3 | ]. split; [now rewrite F4, A4 | ].
  split.
  - intros from. unfold callNodeModulePaths. cbn [ctors instances]. rewrite Ec.
    cbn [_nodeModulePaths capturedNodeModulePaths instances]. now rewrite Ei.
  - intros request p args. unfold callResolveFilename.
    cbn [ctors instances modules]. rewrite Ec.
    cbn [_resolveFilename capturedResolveFilename instances]. rewrite Ei.
    now destruct (resolveFilename (fst r) request p args (snd r)).
Qed.

Lemma construction_installs_wrappers_witness :
  exists h w',
    new_ModuleAlias Sample.env (Some 0) None Sample.world = (Return h, w') /\
    oldNodeModulePaths (instances w' h) = Sample.nativePaths /\
    callNodeModulePaths 0 "/app/src" w'
    = nodeModulePaths (instances w' h) "/app/src".
Proof.
  destruct (construction_installs_wrappers Sample.env (Some 0) None Sample.world
              0 Sample.nativePaths Sample.echoResolve "/app" Sample.manifest)
    as (h & w' & E & _ & _ & _ & _ & _ & _ & _ & O & _ & P & _);
    try reflexivity.
  - discriminate.
  - exists h, w'. split; [exact E | ]. split; [exact O | apply P].
Defined.

(** The directories the constructor registers also reach the requesting
    module's own search-path list: when that module has a list, the list
    after construction keeps every earlier entry and holds each registered
    directory, joined to the base. *)
Theorem construction_threads_directories
  (env : Env) (parent : option ModRef) (opts : option GivenOptions) (w : World)
  (m : ModRef) (base : string) (pkg : PackageJson) (own : list string) :
  requestingModule env parent = Some m ->
  _moduleAlias (ctors w (constructor (modules w m))) = None ->
  findPackage env (candidatePackagePaths env opts) None
  = (Some base, Package pkg) ->
  base <> "" ->
  paths (modules w m) = Some own ->
  exists h w' own',
    new_ModuleAlias env parent opts w = (Return h, w') /\
    paths (modules w' m) = Some own' /\
    incl own own' /\
    forall dir,
      In dir match _moduleDirectories pkg with Some ds => ds | None => [] end ->
      dir <> "node_modules" -> In (Path.join base dir) own'.
Proof.
  intros Hm Hn Hf Nb Po.
  rewrite (new_fresh env parent opts w m base pkg Hm Hn Hf Nb). cbn zeta.
  set (c := constructor (modules w m)).
  set (this1 := addAliases _ (freshInstance m c _ _)).
  assert (M1 : module this1 = m).
  { unfold this1. now destruct (addAliases_frame
      (staticAliases (importedAliases base (_moduleAliases pkg)))
      (freshInstance m c
         (capturedNodeModulePaths w (_nodeModulePaths (ctors w c)))
         (capturedResolveFilename w (_resolveFilename (ctors w c))))) as (-> & _). }
  assert (P1 : modulePaths this1 = []).
  { unfold this1. now rewrite addAliases_modulePaths. }
  pose proof (registered_fields
                (map (Path.join base) (registeredDirectories (_moduleDirectories pkg)))
                this1 (modules w)) as RF. cbn zeta in RF.
  rewrite importDirectories_apiCalls. rewrite fold_addPath_apiCalls in RF.
  set (cs := map CallAddPath _) in *.
  destruct RF as (_ & _ & _ & R4).
  destruct (apiCalls_own_grows cs this1 (modules w) own) as (own' & P' & I');
    [now rewrite M1 | ].
  assert (T : PathsThreaded (fst (apiCalls cs (this1, modules w)))
                (snd (apiCalls cs (this1, modules w)))).
  { apply apiCalls_threaded. intros o _. rewrite P1. intros y []. }
  destruct (apiCalls_frame cs this1 (modules w)) as (F1 & _).
  unfold PathsThreaded in T. rewrite F1, M1 in T. rewrite M1 in P'.
  eexists. eexists. exists own'. split; [reflexivity | ]. cbn [modules].
  split; [exact P' | ]. split; [exact I' | ].
  intros dir Hd Nd. apply (T own' P'). apply R4. left.
  apply in_map_iff. exists (Path.join base dir). split; [apply join_normalized | ].
  apply in_map_iff. exists dir. split; [reflexivity | ].
  unfold registeredDirectories. apply filter_In. split; [exact Hd | ].
  apply negb_true_iff. now apply String.eqb_neq.
Qed.

Lemma construction_threads_directories_witness :
  exists h w' own',
    new_ModuleAlias Sample.env (Some 0) None Sample.world = (Return h, w') /\
    paths (modules w' 0) = Some own' /\
    In "/app/node_modules" own' /\ In "/app/node_modules_custom" own'.
Proof.
  destruct (construction_threads_directories Sample.env (Some 0) None Sample.world
              0 "/app" Sample.manifest ["/app/node_modules"; "/node_modules"])
    as (h & w' & own' & E & P & I & D); try reflexivity.
  - discriminate.
  - exists h, w', own'. split; [exact E | ]. split; [exact P | ]. split.
    + apply I. now left.
    + apply (D "node_modules_custom"); [simpl; tauto | discriminate].
Defined.

Lemma constructed_invariants_witness :
  exists h w',
    new_ModuleAlias Cases.secondOnly None None Sample.world = (Return h, w') /\
    AliasTableInv (instances w' h) /\ PathSetInv (instances w' h).
Proof.
  apply (constructed_invariants Cases.secondOnly None None Sample.world 0
           "/work" Sample.manifest); try reflexivity.
  discriminate.
Defined.

Lemma second_construction_witness :
  new_ModuleAlias Sample.env2 None (Some (OptionsString "/elsewhere"))
    Sample.installed
  = (Return 0, Sample.installed).
Proof.
  apply (second_construction Sample.env Sample.env2 (Some 0) None None
           (Some (OptionsString "/elsewhere")) Sample.world Sample.installed
           0 0 1); reflexivity.
Defined.

End ConstructionEffects.

Section FurtherCases.

Lemma api_calls_keep_captured_witness :
  oldResolveFilename (fst Cases.busy) = Sample.echoResolve /\
  snd Cases.busy 7 = Sample.heap 7.
Proof.
  destruct (api_calls_keep_captured
              [CallAddPath "/app/lib"; CallAddAlias "@a" (Static "/x");
               CallAddPath "/app/./vendor/"] Sample.fresh Sample.heap)
    as (_ & _ & _ & O & _ & _ & F).
  split; [exact O | ]. apply F. discriminate.
Defined.

Lemma repairedPaths_is_union_witness :
  In "0" (repairedPaths Sample.numbered (Some ["/app/node_modules"; "__proto__"]))
  /\ ~ In "__proto__"
       (repairedPaths Sample.numbered (Some ["/app/node_modules"; "__proto__"])).
Proof.
  destruct (repairedPaths_is_union Sample.numbered
              (Some ["/app/node_modules"; "__proto__"])) as [_ M].
  split.
  - apply M. split; [left; simpl; tauto | discriminate].
  - intros H. apply M in H. destruct H as [_ H]. now elim H.
Defined.

End FurtherCases.
